(** * AutoGenSrt: the transcription queue and the VTT-to-SRT converter

    A shallow embedding of the algorithmic parts of the repository:
    - [src/utils/fileHelpers.ts]   ([vttToSrt]),
    - [src/services/geminiService.ts] (the clean-up of the model's text in
      [generateSubtitles]),
    - [src/App.tsx] (the queue handlers and the [useEffect] that drives
      [processNextItem]).

    JavaScript strings are sequences of UTF-16 code units; they are modelled
    as lists of [N].  React state is modelled by explicit state passing: every
    handler is a function from the component state to the next one. *)

From Stdlib Require Import List NArith Bool Arith Lia String Ascii.
Import ListNotations.

(* ================================================================= *)
(** ** JavaScript strings and the string primitives the code uses *)

Module JsString.

Definition code_unit := N.
Definition jsstring := list code_unit.

(** A string literal of the source, as code units. *)
Definition lit (s : string) : jsstring :=
  List.map N_of_ascii (list_ascii_of_string s).

Definition LF : code_unit := 10%N.
Definition CR : code_unit := 13%N.
Definition DOT : code_unit := 46%N.
Definition COMMA : code_unit := 44%N.
Definition BACKTICK : code_unit := 96%N.

(** ECMAScript [WhiteSpace] and [LineTerminator]: what [\s] matches and what
    [String.prototype.trim] removes. *)
Definition is_white_space (c : code_unit) : bool :=
  ((c =? 9) || (c =? 10) || (c =? 11) || (c =? 12) || (c =? 13)
   || (c =? 32) || (c =? 160) || (c =? 5760)
   || ((8192 <=? c) && (c <=? 8202))
   || (c =? 8232) || (c =? 8233) || (c =? 8239) || (c =? 8287)
   || (c =? 12288) || (c =? 65279))%N.

Fixpoint str_eqb (a b : jsstring) : bool :=
  match a, b with
  | [], [] => true
  | x :: a', y :: b' => (x =? y)%N && str_eqb a' b'
  | _, _ => false
  end.

(** [s.startsWith(p)] *)
Fixpoint starts_with (p s : jsstring) : bool :=
  match p, s with
  | [], _ => true
  | x :: p', y :: s' => (x =? y)%N && starts_with p' s'
  | _ :: _, [] => false
  end.

(** [s.includes(p)] *)
Fixpoint includes (p s : jsstring) : bool :=
  match s with
  | [] => starts_with p []
  | _ :: s' => starts_with p s || includes p s'
  end.

Definition cons_head (c : code_unit) (bs : list jsstring) : list jsstring :=
  match bs with
  | [] => [[c]]
  | b :: rest => (c :: b) :: rest
  end.

(** [s.split(d)] for a one-unit separator [d]. *)
Fixpoint split_on (d : code_unit) (s : jsstring) : list jsstring :=
  match s with
  | [] => [[]]
  | c :: s' => if (c =? d)%N then [] :: split_on d s'
               else cons_head c (split_on d s')
  end.

(** [parts.join(sep)] *)
Fixpoint join (sep : jsstring) (parts : list jsstring) : jsstring :=
  match parts with
  | [] => []
  | p :: rest =>
      match rest with
      | [] => p
      | _ :: _ => p ++ sep ++ join sep rest
      end
  end.

(** [arr.findIndex(f)], with [None] for the source's [-1]. *)
Fixpoint findIndex {A : Type} (f : A -> bool) (l : list A) : option nat :=
  match l with
  | [] => None
  | x :: l' => if f x then Some 0
               else match findIndex f l' with
                    | Some i => Some (S i)
                    | None => None
                    end
  end.

(** [arr[i] = g(arr[i])] for an index inside the array. *)
Fixpoint update_at {A : Type} (i : nat) (g : A -> A) (l : list A) {struct l}
    : list A :=
  match l, i with
  | [], _ => []
  | x :: l', 0 => g x :: l'
  | x :: l', S j => x :: update_at j g l'
  end.

Fixpoint trim_start (s : jsstring) : jsstring :=
  match s with
  | [] => []
  | c :: s' => if is_white_space c then trim_start s' else s
  end.

Fixpoint trim_end (s : jsstring) : jsstring :=
  match s with
  | [] => []
  | c :: s' =>
      match trim_end s' with
      | [] => if is_white_space c then [] else [c]
      | r => c :: r
      end
  end.

(** [s.trim()] *)
Definition trim (s : jsstring) : jsstring := trim_end (trim_start s).

(** [!s] for a string: only the empty string is falsy. *)
Definition is_empty (s : jsstring) : bool :=
  match s with [] => true | _ :: _ => false end.

End JsString.

(* ================================================================= *)
(** ** [src/utils/fileHelpers.ts]: [vttToSrt] *)

Module FileHelpers.
Import JsString.

Definition WEBVTT : jsstring := lit "WEBVTT".
Definition ARROW : jsstring := lit "-->".
Definition BLANK_LINE : jsstring := [LF; LF].

(** The tail [(\r\n|\n)*] of a greedy [(\r\n|\n)+]: nothing follows the group
    in the pattern, so the longest run is the match. *)
Fixpoint newlines_star (s : jsstring) : jsstring :=
  match s with
  | c :: s1 =>
      if (c =? LF)%N then newlines_star s1
      else if (c =? CR)%N then
        match s1 with
        | d :: s2 => if (d =? LF)%N then newlines_star s2 else s
        | [] => s
        end
      else s
  | [] => []
  end.

(** [(\r\n|\n)+] at the start of [s]: the rest after the match, if any. *)
Definition newlines_plus (s : jsstring) : option jsstring :=
  match s with
  | c :: s1 =>
      if (c =? LF)%N then Some (newlines_star s1)
      else if (c =? CR)%N then
        match s1 with
        | d :: s2 => if (d =? LF)%N then Some (newlines_star s2) else None
        | [] => None
        end
      else None
  | [] => None
  end.

(** [\s*(\r\n|\n)+] at the start of [s], by backtracking: the greedy [\s*]
    first tries to take one more white-space unit, and gives it back when the
    rest of the pattern fails after it. *)
Fixpoint spaces_then_newlines (s : jsstring) : option jsstring :=
  match s with
  | c :: s' =>
      if is_white_space c then
        match spaces_then_newlines s' with
        | Some r => Some r
        | None => newlines_plus s
        end
      else newlines_plus s
  | [] => newlines_plus []
  end.

(** [vtt.replace(/^WEBVTT\s*(\r\n|\n)+/, '')] *)
Definition strip_header (vtt : jsstring) : jsstring :=
  if starts_with WEBVTT vtt then
    match spaces_then_newlines (skipn (List.length WEBVTT) vtt) with
    | Some rest => rest
    | None => vtt
    end
  else vtt.

(** [s.split(/\n\n+/)].  A separator is a maximal run of two or more line
    feeds; [in_sep] says that the scan is inside such a run. *)
Fixpoint split_blank (in_sep : bool) (s : jsstring) : list jsstring :=
  match s with
  | [] => [[]]
  | c :: s' =>
      if in_sep && (c =? LF)%N then split_blank true s'
      else if (c =? LF)%N && starts_with [LF] s' then [] :: split_blank true s'
      else cons_head c (split_blank false s')
  end.

Definition split_blocks (s : jsstring) : list jsstring := split_blank false s.

(** [line.replace(/\./g, ',')] *)
Definition dot_to_comma (c : code_unit) : code_unit :=
  if (c =? DOT)%N then COMMA else c.

Definition fix_timestamps (line : jsstring) : jsstring :=
  List.map dot_to_comma line.

(** The callback of [blocks.map]. *)
Definition convert_block (block : jsstring) : jsstring :=
  let lines := split_on LF block in
  match findIndex (includes ARROW) lines with
  | None => []
  | Some timeIdx => join [LF] (update_at timeIdx fix_timestamps lines)
  end.

(** The callback of [filter]: [b.trim() !== ''] *)
Definition not_blank (b : jsstring) : bool := negb (is_empty (trim b)).

Definition vttToSrt (vtt : jsstring) : jsstring :=
  if is_empty vtt then []
  else
    let cleanVtt := strip_header vtt in
    let blocks := split_blocks cleanVtt in
    join BLANK_LINE (List.filter not_blank (List.map convert_block blocks)).

End FileHelpers.

(* ================================================================= *)
(** ** [src/services/geminiService.ts]: [generateSubtitles] *)

Module GeminiService.
Import JsString.

(** How a promise settles.  [message] is the [message] property of the
    rejection value, which may be missing. *)
Inductive Settled (A : Type) : Type :=
| Fulfilled (value : A)
| Rejected (message : option jsstring).
Arguments Fulfilled {A} value.
Arguments Rejected {A} message.

Definition is_backtick (c : code_unit) : bool := (c =? BACKTICK)%N.
(** Under the [i] flag, [v] matches [v] and [V], and [t] matches [t] and [T]. *)
Definition is_v (c : code_unit) : bool := ((c =? 118) || (c =? 86))%N.
Definition is_t (c : code_unit) : bool := ((c =? 116) || (c =? 84))%N.

(** A match of [/```vtt/i] at the start of [s]. *)
Definition fence_vtt_here (s : jsstring) : bool :=
  match s with
  | a :: b :: c :: v :: t1 :: t2 :: _ =>
      is_backtick a && is_backtick b && is_backtick c
      && is_v v && is_t t1 && is_t t2
  | _ => false
  end.

(** A match of [/```/] at the start of [s]. *)
Definition fence_here (s : jsstring) : bool :=
  match s with
  | a :: b :: c :: _ => is_backtick a && is_backtick b && is_backtick c
  | _ => false
  end.

(** [text.replace(/```vtt/gi, '')]: matches are taken from left to right and
    the scan resumes after each match. *)
Fixpoint remove_fence_vtt (s : jsstring) : jsstring :=
  match s with
  | [] => []
  | c :: s1 =>
      if fence_vtt_here s then
        match s1 with
        | _ :: _ :: _ :: _ :: _ :: s6 => remove_fence_vtt s6
        | _ => []
        end
      else c :: remove_fence_vtt s1
  end.

(** [text.replace(/```/g, '')] *)
Fixpoint remove_fence (s : jsstring) : jsstring :=
  match s with
  | [] => []
  | c :: s1 =>
      if fence_here s then
        match s1 with
        | _ :: _ :: s3 => remove_fence s3
        | _ => []
        end
      else c :: remove_fence s1
  end.

Definition cleanText (text : jsstring) : jsstring :=
  trim (remove_fence (remove_fence_vtt text)).

(** What [ai.models.generateContent] does: it throws, or it answers with a
    response whose [text] may be undefined. *)
Inductive ModelReply : Type :=
| ReplyText (text : option jsstring)
| ReplyThrows (message : option jsstring).

Definition MSG_NO_KEY : jsstring :=
  lit "API Key is missing. Please check your environment configuration.".
Definition MSG_NO_TEXT : jsstring := lit "No text generated from the model.".

(** [generateSubtitles(base64Audio, mimeType)].  [API_KEY] is the module
    constant and [ai] stands for the remote model. *)
Definition generateSubtitles
    (API_KEY : jsstring) (ai : option jsstring -> jsstring -> ModelReply)
    (base64Audio : option jsstring) (mimeType : jsstring) : Settled jsstring :=
  if is_empty API_KEY then Rejected (Some MSG_NO_KEY)
  else
    match ai base64Audio mimeType with
    | ReplyThrows m => Rejected m
    | ReplyText None => Rejected (Some MSG_NO_TEXT)
    | ReplyText (Some text) =>
        if is_empty text then Rejected (Some MSG_NO_TEXT)
        else Fulfilled (cleanText text)
    end.

End GeminiService.

(* ================================================================= *)
(** ** [src/App.tsx]: the queue *)

Module App.
Import JsString GeminiService.

Inductive Status : Type := Idle | Processing | Completed | Error.

Definition status_eqb (a b : Status) : bool :=
  match a, b with
  | Idle, Idle | Processing, Processing
  | Completed, Completed | Error, Error => true
  | _, _ => false
  end.

(** The part of a browser [File] the code reads. *)
Record File : Type := mkFile { name : jsstring; type : jsstring }.

(** [QueueItem] of [types.ts]. *)
Record QueueItem : Type := mkItem {
  id : jsstring;
  file : File;
  status : Status;
  subtitles : option jsstring;
  error : option jsstring
}.

(** The component state of [App], and the calls of the job runner that are
    awaited: each holds the [nextItem] its closure captured. *)
Record AppState : Type := mkState {
  queue : list QueueItem;
  isProcessing : bool;
  selectedItemId : option jsstring;
  inflight : list QueueItem
}.

Definition initial : AppState := mkState [] false None [].

(** [!selectedItemId] *)
Definition nothing_selected (sel : option jsstring) : bool :=
  match sel with
  | None => true
  | Some s => is_empty s
  end.

(** [handleFilesSelect]: every file comes with the id that
    [Math.random().toString(36).substring(2, 9)] drew for it. *)
Definition handleFilesSelect (files : list (jsstring * File))
    (st : AppState) : AppState :=
  let newItems := List.map (fun df => mkItem (fst df) (snd df) Idle None None) files in
  mkState (queue st ++ newItems)
          (isProcessing st)
          (match newItems with
           | first :: _ =>
               if nothing_selected (selectedItemId st) then Some (id first)
               else selectedItemId st
           | [] => selectedItemId st
           end)
          (inflight st).

(** [{ ...q, status: 'processing' }] *)
Definition mark_processing (q : QueueItem) : QueueItem :=
  mkItem (id q) (file q) Processing (subtitles q) (error q).

(** [{ ...q, status: 'completed', subtitles: generatedText }] *)
Definition mark_completed (generatedText : jsstring) (q : QueueItem) : QueueItem :=
  mkItem (id q) (file q) Completed (Some generatedText) (error q).

(** [{ ...q, status: 'error', error: error.message || 'Processing failed' }] *)
Definition mark_error (message : option jsstring) (q : QueueItem) : QueueItem :=
  mkItem (id q) (file q) Error (subtitles q)
         (Some (match message with
                | Some m => if is_empty m then lit "Processing failed" else m
                | None => lit "Processing failed"
                end)).

(** [{ ...q, status: 'idle', error: undefined, subtitles: undefined }] *)
Definition mark_retry (q : QueueItem) : QueueItem :=
  mkItem (id q) (file q) Idle None None.

(** [prev.map(q => q.id === target ? f(q) : q)] *)
Definition update_id (target : jsstring) (f : QueueItem -> QueueItem)
    (prev : list QueueItem) : list QueueItem :=
  List.map (fun q => if str_eqb (id q) target then f q else q) prev.

(** [queue.find(item => item.status === 'idle')] *)
Definition next_idle (q : list QueueItem) : option QueueItem :=
  List.find (fun item => status_eqb (status item) Idle) q.

(** [processNextItem] up to its first [await]: the body of the effect. *)
Definition processNextItem_start (st : AppState) : AppState :=
  if isProcessing st then st
  else
    match next_idle (queue st) with
    | None => st
    | Some nextItem =>
        mkState (update_id (id nextItem) mark_processing (queue st))
                true
                (selectedItemId st)
                (inflight st ++ [nextItem])
    end.

(** The outcome of [fileToBase64]: the reader's result is a data URL, is not
    a string, or the read fails (with an event that has no [message]). *)
Inductive FileRead : Type :=
| ReadDataUrl (url : jsstring)
| ReadNotString
| ReadFails.

Definition fileToBase64 (r : FileRead) : Settled (option jsstring) :=
  match r with
  | ReadDataUrl url => Fulfilled (nth_error (split_on 44%N url) 1)
  | ReadNotString => Rejected (Some (lit "Failed to convert file to base64"))
  | ReadFails => Rejected None
  end.

(** The [try] block of [processNextItem]: the two awaited calls. *)
Definition runJob (API_KEY : jsstring)
    (ai : option jsstring -> jsstring -> ModelReply)
    (r : FileRead) (nextItem : QueueItem) : Settled jsstring :=
  match fileToBase64 r with
  | Fulfilled base64 => generateSubtitles API_KEY ai base64 (type (file nextItem))
  | Rejected m => Rejected m
  end.

(** [processNextItem] after the awaited calls settle: the update of the
    [try] or of the [catch] branch, then [finally]. *)
Definition processNextItem_settle (nextItem : QueueItem)
    (outcome : Settled jsstring) (st : AppState) : AppState :=
  mkState (match outcome with
           | Fulfilled generatedText =>
               update_id (id nextItem) (mark_completed generatedText) (queue st)
           | Rejected message =>
               update_id (id nextItem) (mark_error message) (queue st)
           end)
          false
          (selectedItemId st)
          (inflight st).

Definition option_str_eqb (a : option jsstring) (b : jsstring) : bool :=
  match a with
  | Some x => str_eqb x b
  | None => false
  end.

(** [removeItem] *)
Definition removeItem (target : jsstring) (st : AppState) : AppState :=
  mkState (List.filter (fun q => negb (str_eqb (id q) target)) (queue st))
          (isProcessing st)
          (if option_str_eqb (selectedItemId st) target then None
           else selectedItemId st)
          (inflight st).

(** [handleRetry] *)
Definition handleRetry (target : jsstring) (st : AppState) : AppState :=
  mkState (update_id target mark_retry (queue st))
          (isProcessing st)
          (selectedItemId st)
          (inflight st).

(** [reset] *)
Definition reset (st : AppState) : AppState :=
  mkState [] false None (inflight st).

(** What can happen to the component. *)
Inductive Event : Type :=
| FilesSelect (files : list (jsstring * File))
| Effect
| Settle (call : nat) (outcome : Settled jsstring)
| Retry (target : jsstring)
| Remove (target : jsstring)
| Clear.

Fixpoint remove_nth {A : Type} (n : nat) (l : list A) {struct l} : list A :=
  match l, n with
  | [], _ => []
  | _ :: l', 0 => l'
  | x :: l', S m => x :: remove_nth m l'
  end.

Definition step (st : AppState) (e : Event) : AppState :=
  match e with
  | FilesSelect files => handleFilesSelect files st
  | Effect => processNextItem_start st
  | Settle call outcome =>
      match nth_error (inflight st) call with
      | Some nextItem =>
          let st' := processNextItem_settle nextItem outcome st in
          mkState (queue st') (isProcessing st') (selectedItemId st')
                  (remove_nth call (inflight st'))
      | None => st
      end
  | Retry target => handleRetry target st
  | Remove target => removeItem target st
  | Clear => reset st
  end.

Definition run (st : AppState) (events : list Event) : AppState :=
  List.fold_left step events st.

Definition reachable (st : AppState) : Prop :=
  exists events, run initial events = st.

Definition is_nil {A : Type} (l : list A) : bool :=
  match l with [] => true | _ :: _ => false end.

(** What the rendered page lets happen: the uploader is shown only for an
    empty queue and is disabled while [isProcessing]; it passes on a
    non-empty selection; the retry button exists for error and completed
    items, the remove button for items that are not processing, the clear
    button whenever the queue is shown. *)
Definition ui_offers (st : AppState) (e : Event) : bool :=
  match e with
  | FilesSelect files =>
      is_nil (queue st) && negb (isProcessing st) && negb (is_nil files)
  | Effect => true
  | Settle call _ => Nat.ltb call (List.length (inflight st))
  | Retry target =>
      List.existsb (fun q => str_eqb (id q) target
                             && (status_eqb (status q) Error
                                 || status_eqb (status q) Completed))
                   (queue st)
  | Remove target =>
      List.existsb (fun q => str_eqb (id q) target
                             && negb (status_eqb (status q) Processing))
                   (queue st)
  | Clear => negb (is_nil (queue st))
  end.

Fixpoint ui_run (st : AppState) (events : list Event) : bool :=
  match events with
  | [] => true
  | e :: rest => ui_offers st e && ui_run (step st e) rest
  end.

Definition count_processing (q : list QueueItem) : nat :=
  List.length (List.filter (fun item => status_eqb (status item) Processing) q).

End App.

Import JsString FileHelpers GeminiService App.

(* ================================================================= *)
(** ** Predicates used to state the properties *)

(** No two adjacent line feeds. *)
Fixpoint no_blank (p : jsstring) : bool :=
  match p with
  | [] => true
  | c :: p' => negb ((c =? LF)%N && starts_with [LF] p') && no_blank p'
  end.

Fixpoint ends_lf (p : jsstring) : bool :=
  match p with
  | [] => false
  | c :: p' =>
      match p' with
      | [] => (c =? LF)%N
      | _ :: _ => ends_lf p'
      end
  end.

(** A sequence of blocks as a split leaves them: no block has a blank line
    inside, only the first may start with a line feed and only the last may
    end with one. *)
Fixpoint chain (first : bool) (bs : list jsstring) : Prop :=
  match bs with
  | [] => True
  | b :: rest =>
      no_blank b = true
      /\ (first = false -> starts_with [LF] b = false)
      /\ (rest <> [] -> ends_lf b = false)
      /\ chain false rest
  end.

(** Where the line feeds of a string are. *)
Definition lf_mask (s : jsstring) : list bool :=
  map (fun c => (c =? LF)%N) s.

(** The block has a line that contains the time-range token. *)
Definition has_time_line (block : jsstring) : bool :=
  match findIndex (includes ARROW) (split_on LF block) with
  | Some _ => true
  | None => false
  end.

(** The blocks that [vttToSrt] joins into its result. *)
Definition srt_blocks (vtt : jsstring) : list jsstring :=
  map convert_block (filter has_time_line (split_blocks (strip_header vtt))).

(** A cue of a WebVTT text: its time-range line and the lines of its text. *)
Record Cue : Type := mkCue { time_line : jsstring; text_lines : list jsstring }.

(** A line of a cue is not empty and has no line feed inside. *)
Definition line_ok (l : jsstring) : bool :=
  negb (is_empty l) && negb (existsb (fun c => (c =? LF)%N) l).

(** The time-range line carries the token [-->]; the text has no blank line. *)
Definition well_formed_cue (c : Cue) : bool :=
  line_ok (time_line c) && includes ARROW (time_line c)
  && forallb line_ok (text_lines c).

Definition render_cue (c : Cue) : jsstring :=
  join [LF] (time_line c :: text_lines c).

(** The cue with the dots of its time-range line turned into commas. *)
Definition srt_cue (c : Cue) : Cue :=
  mkCue (fix_timestamps (time_line c)) (text_lines c).

(** A WebVTT text of two cues: the header line [WEBVTT], [gap1] line feeds,
    the first cue, [gap2] line feeds, the second cue. *)
Definition two_cue_vtt (gap1 gap2 : nat) (c1 c2 : Cue) : jsstring :=
  WEBVTT ++ repeat LF gap1 ++ render_cue c1 ++ repeat LF gap2 ++ render_cue c2.

(** [block] is the cue [c] in SRT form: its lines are the time-range line of
    [c] with every dot turned into a comma, followed by the text of [c]; a
    line that reads [WEBVTT] can only be a line of the text. *)
Definition srt_block_of (c : Cue) (block : jsstring) : Prop :=
  split_on LF block = fix_timestamps (time_line c) :: text_lines c
  /\ includes ARROW (fix_timestamps (time_line c)) = true
  /\ ~ In DOT (fix_timestamps (time_line c))
  /\ (forall l, In l (split_on LF block) -> l = WEBVTT -> In l (text_lines c)).

(** The text [T] has no line feed before its first unit that is not white
    space: the pattern cannot reach into it. *)
Definition closed_start (T : jsstring) : Prop :=
  exists w y r, T = w ++ y :: r
                /\ Forall (fun c => is_white_space c = true /\ c <> LF) w
                /\ is_white_space y = false.

(** Sample texts. *)
Definition cue_hello : Cue :=
  mkCue (lit "00:00:01.000 --> 00:00:04.500") [lit "Hello there."].
Definition cue_bye : Cue :=
  mkCue (lit "00:00:05.000 --> 00:00:07.250") [lit "Good"; lit "bye."].
Definition sample_vtt : jsstring := two_cue_vtt 2 2 cue_hello cue_bye.
Definition note_then_cue : jsstring :=
  lit "NOTE made by hand" ++ BLANK_LINE ++ render_cue cue_hello.

(** A text whose first cue carries the identifier line [WEBVTT]. *)
Definition header_twice : jsstring :=
  WEBVTT ++ [LF] ++ WEBVTT ++ [LF] ++ lit "00:01.000 --> 00:02.000".

(** The code-fence token and its tagged form. *)
Definition FENCE : jsstring := lit "```".
Definition FENCE_VTT : jsstring := lit "```vtt".

(** The number of backticks a string starts with. *)
Fixpoint leading_backticks (s : jsstring) : nat :=
  match s with
  | c :: s' => if is_backtick c then S (leading_backticks s') else 0
  | [] => 0
  end.

(** Neither the first nor the last unit is white space. *)
Definition trimmed (s : jsstring) : Prop :=
  match s with
  | [] => True
  | c :: _ => is_white_space c = false
  end
  /\ match rev s with
     | [] => True
     | c :: _ => is_white_space c = false
     end.

(** The ids of a queue, in queue order. *)
Definition ids (q : list QueueItem) : list jsstring := map id q.

(** No job of the queue has the id [target]. *)
Definition absent (target : jsstring) (q : list QueueItem) : Prop :=
  Forall (fun j => id j <> target) q.

(** The event does not enqueue a job with the id [target]. *)
Definition avoids (target : jsstring) (e : Event) : bool :=
  match e with
  | FilesSelect files =>
      forallb (fun df => negb (str_eqb (fst df) target)) files
  | _ => true
  end.

Fixpoint distinct (l : list jsstring) : bool :=
  match l with
  | [] => true
  | x :: rest => negb (existsb (str_eqb x) rest) && distinct rest
  end.

(** The ids drawn for [files] differ from each other and from the ids of
    the queue [q]. *)
Definition fresh_files (q : list QueueItem) (files : list (jsstring * File))
    : bool :=
  distinct (map fst files)
  && forallb (fun i => negb (existsb (str_eqb i) (ids q))) (map fst files).

(** Along the run, every selection of files draws fresh ids. *)
Fixpoint fresh_draws (st : AppState) (events : list Event) : bool :=
  match events with
  | [] => true
  | e :: rest =>
      match e with
      | FilesSelect files => fresh_files (queue st) files
      | _ => true
      end
      && fresh_draws (step st e) rest
  end.

(** The run never clears the queue. *)
Definition never_clears (events : list Event) : bool :=
  forallb (fun e => match e with Clear => false | _ => true end) events.

(** What holds of the flag, the awaited calls and the statuses as long as
    the queue is never cleared and the drawn ids are fresh. *)
Definition single_flight (st : AppState) : Prop :=
  NoDup (ids (queue st))
  /\ if isProcessing st
     then exists j, inflight st = [j]
                    /\ Forall (fun q => status q = Processing -> id q = id j)
                              (queue st)
     else inflight st = []
          /\ Forall (fun q => status q <> Processing) (queue st).

(** Sample files, jobs and runs. *)
Definition file_a : File := mkFile (lit "a.mp3") (lit "audio/mpeg").
Definition file_b : File := mkFile (lit "b.wav") (lit "audio/wav").
Definition file_c : File := mkFile (lit "c.mp4") (lit "video/mp4").
Definition job_a : QueueItem := mkItem (lit "a") file_a Idle None None.

(** One file is started and the queue is cleared while the call is awaited;
    two files are selected and the first is started; the call of the cleared
    job settles; the effect runs again. *)
Definition clear_in_flight : list Event :=
  [ FilesSelect [(lit "a", file_a)]; Effect; Clear;
    FilesSelect [(lit "b", file_b); (lit "c", file_c)]; Effect;
    Settle 0 (Fulfilled WEBVTT); Effect ].

(** Two files are selected. *)
Definition two_selected : list Event :=
  [ FilesSelect [(lit "a", file_a); (lit "b", file_b)] ].

(** Two files whose drawn ids are the same. *)
Definition same_draw : list Event :=
  [ FilesSelect [(lit "x", file_a); (lit "x", file_b)] ].

(** A model that answers with nothing but a code fence. *)
Definition fence_only : option jsstring -> jsstring -> ModelReply :=
  fun _ _ => ReplyText (Some (FENCE_VTT ++ [LF] ++ FENCE)).

(** A model that wraps the text [WEBVTT] in code fences. *)
Definition fenced_reply : option jsstring -> jsstring -> ModelReply :=
  fun _ _ => ReplyText (Some (FENCE_VTT ++ [LF] ++ WEBVTT ++ [LF] ++ FENCE)).

Definition some_key : jsstring := lit "key".
Definition data_url : jsstring := lit "data:audio/mpeg;base64,QUJD".

(* ================================================================= *)
(** ** [src/components/FileUploader.tsx]: [processFiles] *)

Module FileUploader.
Import JsString App.

(** A browser [File] together with the [size] the uploader reads. *)
Record UploadFile : Type := mkUpload { upload : File; size : N }.

Definition maxSizeBytes : N := (100 * 1024 * 1024)%N.

(** The canonical form under the [i] flag of a unit below 128: its upper
    case.  A unit from 128 on never has a canonical form below 128, so it
    is left as it is: it matches no unit of an ASCII pattern. *)
Definition to_upper (c : code_unit) : code_unit :=
  if ((97 <=? c) && (c <=? 122))%N then (c - 32)%N else c.

(** The pattern unit [p], below 128, matches [c] under the [i] flag. *)
Definition ci_eqb (p c : code_unit) : bool := (to_upper p =? to_upper c)%N.

(** [s] is the word [p] up to case, and the input ends there: [p$]. *)
Fixpoint ci_matches_all (p s : jsstring) : bool :=
  match p, s with
  | [], [] => true
  | x :: p', y :: s' => ci_eqb x y && ci_matches_all p' s'
  | _, _ => false
  end.

Definition EXTENSIONS : list jsstring :=
  [ lit "mp3"; lit "wav"; lit "m4a"; lit "mp4"; lit "mpeg"; lit "webm";
    lit "ogg"; lit "flac"; lit "aac"; lit "wma"; lit "mov"; lit "mkv" ].

(** A match of [/\.(mp3|wav|...|mkv)$/i] that starts at the start of [s]. *)
Definition extension_here (s : jsstring) : bool :=
  match s with
  | c :: rest =>
      (c =? DOT)%N && existsb (fun e => ci_matches_all e rest) EXTENSIONS
  | [] => false
  end.

(** [/\.(mp3|wav|...|mkv)$/i.test(name)]: a match at some position. *)
Fixpoint hasValidExtension (fileName : jsstring) : bool :=
  match fileName with
  | [] => false
  | _ :: rest => extension_here fileName || hasValidExtension rest
  end.

(** [type.startsWith('audio/') || type.startsWith('video/')] *)
Definition isAudioVideoType (mime : jsstring) : bool :=
  starts_with (lit "audio/") mime || starts_with (lit "video/") mime.

(** The test under which [processFiles] pushes a file to [validFiles]. *)
Definition is_valid (f : UploadFile) : bool :=
  (isAudioVideoType (type (upload f)) || hasValidExtension (name (upload f)))
  && (size f <=? maxSizeBytes)%N.

(** What [processFiles] ends with. *)
Inductive UploaderAction : Type :=
| OnFilesSelect (validFiles : list UploadFile)
| AlertNoValid
| NoAction.

Definition processFiles (fileList : list UploadFile) : UploaderAction :=
  match filter is_valid fileList with
  | f :: rest => OnFilesSelect (f :: rest)
  | [] =>
      match fileList with
      | _ :: _ => AlertNoValid
      | [] => NoAction
      end
  end.

(** [handleDrop], for the files of the drop. *)
Definition handleDrop (disabled : bool) (files : list UploadFile)
    : UploaderAction :=
  if disabled then NoAction
  else match files with
       | _ :: _ => processFiles files
       | [] => NoAction
       end.

End FileUploader.

(* ================================================================= *)
(** ** The downloads: [handleDownloadAll] of [src/App.tsx] and the handlers
       of the subtitle viewer *)

Module Downloads.
Import JsString FileHelpers App.

(** [s.lastIndexOf(d)], with [None] for [-1]. *)
Fixpoint lastIndexOf (d : code_unit) (s : jsstring) : option nat :=
  match s with
  | [] => None
  | c :: s' =>
      match lastIndexOf d s' with
      | Some i => Some (S i)
      | None => if (c =? d)%N then Some 0 else None
      end
  end.

(** The file name without its extension, as [handleDownloadAll] takes it. *)
Definition baseName (fileName : jsstring) : jsstring :=
  match lastIndexOf DOT fileName with
  | Some lastDotIndex => firstn lastDotIndex fileName
  | None => fileName
  end.

(** [q.status === 'completed' && q.subtitles] *)
Definition has_result (q : QueueItem) : bool :=
  status_eqb (status q) Completed
  && match subtitles q with
     | Some s => negb (is_empty s)
     | None => false
     end.

(** The body of the [forEach]: the entry pushed for an item, if any. *)
Definition zipEntry (item : QueueItem) : list (jsstring * jsstring) :=
  match subtitles item with
  | Some s =>
      if is_empty s then []
      else [(baseName (name (file item)) ++ lit ".srt", vttToSrt s)]
  | None => []
  end.

(** [handleDownloadAll]: the files and the archive name handed to
    [downloadAsZip], or [None] when it returns early. *)
Definition handleDownloadAll (queue : list QueueItem)
    : option (list (jsstring * jsstring) * jsstring) :=
  match filter has_result queue with
  | [] => None
  | item :: rest =>
      Some (flat_map zipEntry (item :: rest), lit "subtitles_srt.zip")
  end.

(** [name.split('.')[0]] *)
Definition firstSegment (fileName : jsstring) : jsstring :=
  hd [] (split_on DOT fileName).

(** [handleDownloadSrt] of the viewer: the content and the file name handed
    to [downloadTextFile]. *)
Definition handleDownloadSrt (subtitles : jsstring) (audioFile : option File)
    : jsstring * jsstring :=
  (vttToSrt subtitles,
   match audioFile with
   | Some f => firstSegment (name f) ++ lit ".srt"
   | None => lit "subtitles.srt"
   end).

(** [handleDownloadVtt] of the viewer. *)
Definition handleDownloadVtt (subtitles : jsstring) (audioFile : option File)
    : jsstring * jsstring :=
  (subtitles,
   match audioFile with
   | Some f => firstSegment (name f) ++ lit ".vtt"
   | None => lit "subtitles.vtt"
   end).

End Downloads.

Import FileUploader Downloads.

(* ================================================================= *)
(** ** Predicates for the further properties *)

(** What the status of a job says about its fields, in every state. *)
Definition fields_by_status (q : QueueItem) : Prop :=
  match status q with
  | Idle => subtitles q = None /\ error q = None
  | Processing => True
  | Completed => exists t, subtitles q = Some t
  | Error => exists m, error q = Some m /\ m <> []
  end.

(** The subtitles are there exactly for a completed job and the error
    exactly for a failed one. *)
Definition exclusive_fields (q : QueueItem) : Prop :=
  match status q with
  | Idle | Processing => subtitles q = None /\ error q = None
  | Completed => (exists t, subtitles q = Some t) /\ error q = None
  | Error => subtitles q = None /\ exists m, error q = Some m
  end.

(** The invariant behind [exclusive_fields]. *)
Definition well_kept (st : AppState) : Prop :=
  NoDup (ids (queue st))
  /\ Forall exclusive_fields (queue st)
  /\ if isProcessing st
     then exists j, inflight st = [j]
                    /\ Forall (fun q => id q = id j ->
                                        status q = Idle \/ status q = Processing)
                              (queue st)
     else inflight st = [].

(** The event is not a selection of files. *)
Definition selects_nothing (e : Event) : bool :=
  match e with
  | FilesSelect _ => false
  | _ => true
  end.

(** The selected id, if any, is the id of a job of the queue. *)
Definition selection_in_queue (st : AppState) : Prop :=
  match selectedItemId st with
  | None => True
  | Some i => In i (ids (queue st))
  end.

(** The number of dots of a file name. *)
Definition dots (fileName : jsstring) : nat :=
  List.length (filter (fun c => (c =? DOT)%N) fileName).

(** Sample runs and inputs for the further properties. *)
Definition retry_in_flight : list Event :=
  [ FilesSelect [(lit "a", file_a); (lit "b", file_b)]; Effect;
    Retry (lit "a"); Settle 0 (Rejected None); Effect;
    Settle 0 (Fulfilled WEBVTT); Retry (lit "a") ].

Definition orphans_settle : list Event :=
  [ Settle 0 (Fulfilled WEBVTT); Effect; Retry (lit "a"); Remove (lit "a") ].

Definition silent_model : option jsstring -> jsstring -> ModelReply :=
  fun _ _ => ReplyText (Some []).

(** A text of two cues whose line ends are all CR LF. *)
Definition crlf_vtt : jsstring :=
  WEBVTT ++ [CR; LF; CR; LF]
  ++ lit "00:01.000 --> 00:02.000" ++ [CR; LF] ++ lit "Hi." ++ [CR; LF; CR; LF]
  ++ lit "00:03.000 --> 00:04.000" ++ [CR; LF] ++ lit "Bye.".

(** What [vttToSrt] makes of it: the second time-range line keeps its dots. *)
Definition crlf_srt : jsstring :=
  lit "00:01,000 --> 00:02,000" ++ [CR; LF] ++ lit "Hi." ++ [CR; LF; CR; LF]
  ++ lit "00:03.000 --> 00:04.000" ++ [CR; LF] ++ lit "Bye.".

(** Sample uploads. *)
Definition upload_song : UploadFile :=
  mkUpload (mkFile (lit "my.song.MP3") []) 2048%N.
Definition upload_notes : UploadFile :=
  mkUpload (mkFile (lit "notes.txt") (lit "text/plain")) 10%N.
Definition upload_film : UploadFile :=
  mkUpload (mkFile (lit "film") (lit "video/mp4")) 104857601%N.

(** After the removal of the job in flight: the queue is cleared, a file is
    selected that draws the id of the removed job again, and it is started. *)
Definition redraw_after_removal : list Event :=
  [ Clear; FilesSelect [(lit "a", file_c)]; Effect ].

(** An identifier line of a cue: a line without [-->] that is not made of
    white space only. *)
Definition ident_ok (l : jsstring) : bool :=
  line_ok l && negb (includes ARROW l)
  && existsb (fun c => negb (is_white_space c)) l.

(** What follows [WEBVTT] on the header line: no line feed, and no [-->] on
    the line. *)
Definition header_ok (rest : jsstring) : bool :=
  negb (existsb (fun c => (c =? LF)%N) rest)
  && negb (includes ARROW (WEBVTT ++ rest)).

(** The header line is followed by a blank line; after a header line that
    ends with [WEBVTT] or with white space, one line feed is enough. *)
Definition header_gap_ok (rest : jsstring) (gap : nat) : bool :=
  (2 <=? gap) || ((1 <=? gap) && forallb is_white_space rest).

(** A cue with identifier lines before its time-range line. *)
Definition full_cue (idents : list jsstring) (c : Cue) : jsstring :=
  join [LF] (idents ++ time_line c :: text_lines c).

(** A WebVTT text of two cues with line feeds as line ends: the header line,
    [gap1] line feeds, the first cue, [gap2] line feeds, the second cue and
    [gap3] line feeds. *)
Definition two_cue_text (rest : jsstring) (gap1 : nat)
    (idents1 : list jsstring) (c1 : Cue) (gap2 : nat)
    (idents2 : list jsstring) (c2 : Cue) (gap3 : nat) : jsstring :=
  (WEBVTT ++ rest) ++ repeat LF gap1
  ++ full_cue idents1 c1 ++ repeat LF gap2
  ++ full_cue idents2 c2 ++ repeat LF gap3.

(** [block] is the cue in SRT form: its lines are the identifier lines, the
    time-range line with every dot turned into a comma and the text, then
    possibly one empty line; the header line can only be one of the
    identifier or text lines. *)
Definition srt_cue_block (header : jsstring) (idents : list jsstring)
    (c : Cue) (block : jsstring) : Prop :=
  (exists tail,
      (tail = [] \/ tail = [[]])
      /\ split_on LF block
         = idents ++ fix_timestamps (time_line c) :: text_lines c ++ tail)
  /\ includes ARROW (fix_timestamps (time_line c)) = true
  /\ ~ In DOT (fix_timestamps (time_line c))
  /\ (forall l, In l (split_on LF block) -> l = header ->
                In l (idents ++ text_lines c)).

(** A text with a titled header, identifier lines and a final line feed. *)
Definition titled_vtt : jsstring :=
  two_cue_text (lit " - demo") 2 [lit "1"] cue_hello 3 [lit "intro"] cue_bye 1.

(* ================================================================= *)
(** ** Facts about the string primitives *)

#[local] Arguments N.eqb : simpl never.
#[local] Arguments N.leb : simpl never.

Section StringFacts.

Lemma starts_with_LF (s : jsstring) :
  starts_with [LF] s = true <-> exists t, s = LF :: t.
Proof.
  destruct s as [|c t]; simpl.
  - split; [discriminate | intros [t H]; discriminate].
  - rewrite andb_true_r. split.
    + intros H. apply N.eqb_eq in H. subst c. now exists t.
    + intros [u H]. inversion H. reflexivity.
Qed.

Lemma starts_with_app (p s : jsstring) : starts_with p (p ++ s) = true.
Proof.
  induction p as [|x p IH]; simpl; [reflexivity|].
  now rewrite N.eqb_refl, IH.
Qed.

Lemma starts_with_inv (p s : jsstring) :
  starts_with p s = true -> exists t, s = p ++ t.
Proof.
  revert s. induction p as [|x p IH]; intros s H.
  - now exists s.
  - destruct s as [|y s]; simpl in H; [discriminate|].
    apply andb_true_iff in H. destruct H as [Hxy H].
    apply N.eqb_eq in Hxy. subst y.
    destruct (IH _ H) as [t ->]. now exists t.
Qed.

Lemma includes_iff (p s : jsstring) :
  includes p s = true <-> exists a b, s = a ++ p ++ b.
Proof.
  split.
  - induction s as [|c s IH]; simpl; intros H.
    + destruct p; [|discriminate]. now exists [], [].
    + apply orb_true_iff in H. destruct H as [H|H].
      * destruct (starts_with_inv _ _ H) as [t Ht]. exists [], t. exact Ht.
      * destruct (IH H) as (a & b & ->). now exists (c :: a), b.
  - intros (a & b & ->). induction a as [|c a IH]; simpl.
    + destruct (p ++ b) eqn:E; simpl.
      * destruct p; [reflexivity | discriminate].
      * rewrite <- E, starts_with_app. reflexivity.
    + rewrite IH. apply orb_true_r.
Qed.

Lemma includes_infix (p a m b : jsstring) :
  includes p m = true -> includes p (a ++ m ++ b) = true.
Proof.
  intros H. apply includes_iff in H. destruct H as (x & y & ->).
  apply includes_iff. exists (a ++ x), (y ++ b).
  now rewrite <- !app_assoc.
Qed.

Lemma split_on_not_nil (d : code_unit) (s : jsstring) : split_on d s <> [].
Proof.
  destruct s as [|c s]; simpl; [discriminate|].
  destruct (c =? d)%N; [discriminate|].
  destruct (split_on d s); discriminate.
Qed.

Lemma join_split_on (d : code_unit) (s : jsstring) :
  join [d] (split_on d s) = s.
Proof.
  induction s as [|c s IH]; simpl; [reflexivity|].
  destruct (N.eqb_spec c d) as [->|Hne].
  - pose proof (split_on_not_nil d s) as Hn.
    destruct (split_on d s) as [|b bs] eqn:E; [contradiction|].
    simpl. f_equal. exact IH.
  - pose proof (split_on_not_nil d s) as Hn.
    destruct (split_on d s) as [|b bs] eqn:E; [contradiction|].
    simpl in *. destruct bs; simpl in *; now rewrite <- IH.
Qed.

Lemma split_on_free (d : code_unit) (s : jsstring) :
  Forall (fun l => ~ In d l) (split_on d s).
Proof.
  induction s as [|c s IH]; simpl.
  - constructor; [intros []|constructor].
  - destruct (N.eqb_spec c d) as [->|Hne].
    + constructor; [intros []|exact IH].
    + destruct (split_on d s) as [|b bs]; simpl.
      * constructor; [|constructor]. intros [H|[]]. congruence.
      * inversion IH; subst. constructor; [|assumption].
        intros [H|H]; [congruence | contradiction].
Qed.

Lemma split_on_single (d : code_unit) (l : jsstring) :
  ~ In d l -> split_on d l = [l].
Proof.
  induction l as [|c l IH]; simpl; intros H; [reflexivity|].
  destruct (N.eqb_spec c d) as [->|Hne]; [exfalso; now apply H; left|].
  rewrite IH; [reflexivity|]. intros Hin. apply H. now right.
Qed.

Lemma split_on_app (d : code_unit) (l t : jsstring) :
  ~ In d l -> split_on d (l ++ d :: t) = l :: split_on d t.
Proof.
  induction l as [|c l IH]; simpl; intros H.
  - now rewrite N.eqb_refl.
  - destruct (N.eqb_spec c d) as [->|Hne]; [exfalso; now apply H; left|].
    rewrite IH; [reflexivity|]. intros Hin. apply H. now right.
Qed.

Lemma split_on_join (d : code_unit) (lines : list jsstring) :
  lines <> [] -> Forall (fun l => ~ In d l) lines ->
  split_on d (join [d] lines) = lines.
Proof.
  induction lines as [|l rest IH]; intros Hne Hall; [contradiction|].
  inversion Hall as [|? ? Hl Hrest]; subst.
  destruct rest as [|l2 rest'].
  - simpl. now apply split_on_single.
  - change (join [d] (l :: l2 :: rest')) with (l ++ d :: join [d] (l2 :: rest')).
    rewrite split_on_app by assumption.
    f_equal. apply IH; [discriminate | assumption].
Qed.

Lemma trim_start_not_nil (s : jsstring) (c : code_unit) :
  In c s -> is_white_space c = false -> trim_start s <> [].
Proof.
  induction s as [|x s IH]; simpl; intros Hin Hc; [contradiction|].
  destruct (is_white_space x) eqn:Ex; [|discriminate].
  destruct Hin as [->|Hin]; [congruence|]. now apply IH.
Qed.

Lemma trim_start_In (s : jsstring) (c : code_unit) :
  In c s -> is_white_space c = false -> In c (trim_start s).
Proof.
  induction s as [|x s IH]; simpl; intros Hin Hc; [contradiction|].
  destruct (is_white_space x) eqn:Ex; [|exact Hin].
  destruct Hin as [->|Hin]; [congruence|]. now apply IH.
Qed.

Lemma trim_end_not_nil (s : jsstring) (c : code_unit) :
  In c s -> is_white_space c = false -> trim_end s <> [].
Proof.
  induction s as [|x s IH]; simpl; intros Hin Hc; [contradiction|].
  destruct Hin as [->|Hin].
  - rewrite Hc. destruct (trim_end s); discriminate.
  - specialize (IH Hin Hc). destruct (trim_end s); [contradiction | discriminate].
Qed.

Lemma trim_not_nil (s : jsstring) (c : code_unit) :
  In c s -> is_white_space c = false -> trim s <> [].
Proof.
  intros Hin Hc. unfold trim.
  apply trim_end_not_nil with (c := c); [|exact Hc].
  now apply trim_start_In.
Qed.

Lemma trim_start_suffix (s : jsstring) : exists w, s = w ++ trim_start s.
Proof.
  induction s as [|x s [w IH]]; simpl.
  - now exists [].
  - destruct (is_white_space x).
    + exists (x :: w). simpl. now f_equal.
    + now exists [].
Qed.

Lemma trim_end_prefix (s : jsstring) : exists w, s = trim_end s ++ w.
Proof.
  induction s as [|x s [w IH]]; simpl.
  - now exists [].
  - destruct (trim_end s) as [|y r] eqn:E.
    + destruct (is_white_space x).
      * now exists (x :: s).
      * exists w. simpl in *. now f_equal.
    + exists w. simpl. now f_equal.
Qed.

Lemma trim_infix (s : jsstring) : exists a b, s = a ++ trim s ++ b.
Proof.
  destruct (trim_start_suffix s) as [a Ha].
  destruct (trim_end_prefix (trim_start s)) as [b Hb].
  exists a, b. unfold trim. now rewrite <- Hb.
Qed.

Lemma trim_start_head (s : jsstring) :
  match trim_start s with
  | [] => True
  | c :: _ => is_white_space c = false
  end.
Proof.
  induction s as [|x s IH]; simpl; [exact I|].
  destruct (is_white_space x) eqn:E; [exact IH | exact E].
Qed.

Lemma trim_end_head (s : jsstring) (c : code_unit) (r : jsstring) :
  is_white_space c = false -> exists r', trim_end (c :: r) = c :: r'.
Proof.
  intros Hc. simpl. rewrite Hc. destruct (trim_end r); eauto.
Qed.

Lemma trim_end_last (s : jsstring) :
  match rev (trim_end s) with
  | [] => True
  | c :: _ => is_white_space c = false
  end.
Proof.
  induction s as [|x s IH]; simpl; [exact I|].
  destruct (trim_end s) as [|y r] eqn:E.
  - destruct (is_white_space x) eqn:Ex; simpl; [exact I | exact Ex].
  - change (rev (x :: y :: r)) with (rev (y :: r) ++ [x]).
    destruct (rev (y :: r)) as [|z q] eqn:Er.
    + apply (f_equal (@rev _)) in Er. rewrite rev_involutive in Er. discriminate.
    + exact IH.
Qed.

End StringFacts.

(* ================================================================= *)
(** ** The shape of the blocks that [split(/\n\n+/)] produces *)

Section Blocks.

Lemma starts_with_LF_cons (c : code_unit) (t : jsstring) :
  starts_with [LF] (c :: t) = (c =? LF)%N.
Proof. simpl. now rewrite andb_true_r, N.eqb_sym. Qed.

Lemma split_blank_not_nil (in_sep : bool) (s : jsstring) :
  split_blank in_sep s <> [].
Proof.
  revert in_sep. induction s as [|c s IH]; intros in_sep; cbn [split_blank];
    [discriminate|].
  destruct (in_sep && (c =? LF)%N); [apply IH|].
  destruct ((c =? LF)%N && starts_with [LF] s); [discriminate|].
  specialize (IH false). destruct (split_blank false s); [contradiction | discriminate].
Qed.

Lemma split_blank_skip (t : jsstring) :
  starts_with [LF] t = false -> split_blank true t = split_blank false t.
Proof.
  destruct t as [|c t]; [reflexivity|].
  rewrite starts_with_LF_cons. cbn [split_blank andb]. now intros ->.
Qed.

Lemma split_blank_whole (p : jsstring) :
  no_blank p = true -> split_blank false p = [p].
Proof.
  induction p as [|c p IH]; simpl; intros H; [reflexivity|].
  apply andb_true_iff in H. destruct H as [H1 H2].
  apply negb_true_iff in H1. rewrite H1, (IH H2). reflexivity.
Qed.

Lemma split_blank_at_sep (p t : jsstring) :
  no_blank p = true -> ends_lf p = false ->
  split_blank false (p ++ LF :: LF :: t) = p :: split_blank true t.
Proof.
  induction p as [|c p IH]; intros Hnb Hend.
  - reflexivity.
  - simpl in Hnb. apply andb_true_iff in Hnb. destruct Hnb as [H1 H2].
    apply negb_true_iff in H1.
    assert (Hend' : ends_lf p = false).
    { destruct p as [|d p']; [reflexivity | exact Hend]. }
    assert (Hbr : ((c =? LF)%N && starts_with [LF] (p ++ LF :: LF :: t)) = false).
    { destruct p as [|d p'].
      - simpl in Hend. now rewrite Hend.
      - exact H1. }
    change ((c :: p) ++ LF :: LF :: t) with (c :: (p ++ LF :: LF :: t)).
    cbn [split_blank andb]. rewrite Hbr, (IH H2 Hend'). reflexivity.
Qed.

Lemma split_blank_head_lf (s : jsstring) :
  starts_with [LF] s = false ->
  match split_blank false s with
  | b :: _ => starts_with [LF] b = false
  | [] => True
  end.
Proof.
  destruct s as [|c s]; intros H; [reflexivity|].
  rewrite starts_with_LF_cons in H.
  cbn [split_blank andb]. rewrite H. cbn [andb].
  pose proof (split_blank_not_nil false s) as Hn.
  destruct (split_blank false s); [contradiction|].
  cbn [cons_head]. now rewrite starts_with_LF_cons.
Qed.

Lemma split_blank_head_nil (s : jsstring) (rest : list jsstring) :
  split_blank false s = [] :: rest -> rest <> [] -> starts_with [LF] s = true.
Proof.
  destruct s as [|c s]; intros H Hr.
  - simpl in H. inversion H. subst. contradiction.
  - cbn [split_blank andb] in H.
    destruct ((c =? LF)%N && starts_with [LF] s) eqn:E.
    + apply andb_true_iff in E. rewrite starts_with_LF_cons. tauto.
    + destruct (split_blank false s); discriminate.
Qed.

Lemma chain_weaken (first : bool) (bs : list jsstring) :
  chain false bs -> chain first bs.
Proof.
  destruct bs as [|b rest]; simpl; [trivial|].
  intros (H1 & H2 & H3 & H4). repeat split; auto.
Qed.

Lemma split_blank_chain (s : jsstring) (in_sep : bool) :
  chain (negb in_sep) (split_blank in_sep s).
Proof.
  revert in_sep. induction s as [|c s IH]; intros in_sep.
  - simpl. repeat split; auto; try congruence.
  - cbn [split_blank].
    destruct (in_sep && (c =? LF)%N) eqn:E1.
    { apply andb_true_iff in E1. destruct E1 as [-> _]. apply (IH true). }
    destruct ((c =? LF)%N && starts_with [LF] s) eqn:E2.
    { simpl. repeat split; auto. apply (IH true). }
    pose proof (IH false) as IHf. simpl in IHf.
    pose proof (split_blank_not_nil false s) as Hn.
    destruct (split_blank false s) as [|b rest] eqn:Es; [contradiction|].
    destruct IHf as (Hb1 & _ & Hb3 & Hb4).
    cbn [cons_head chain]. repeat split.
    + cbn [no_blank]. rewrite Hb1, andb_true_r. apply negb_true_iff.
      destruct (c =? LF)%N eqn:Ec; [|reflexivity].
      simpl in E2. pose proof (split_blank_head_lf s E2) as Hh.
      rewrite Es in Hh. simpl. exact Hh.
    + intros Hi. destruct in_sep; [|discriminate].
      simpl in E1. now rewrite starts_with_LF_cons.
    + intros Hr. destruct b as [|d b'].
      * cbn [ends_lf]. pose proof (split_blank_head_nil s _ Es Hr) as Hl.
        rewrite Hl, andb_true_r in E2. exact E2.
      * exact (Hb3 Hr).
    + exact Hb4.
Qed.

Lemma chain_filter (f : jsstring -> bool) (first : bool) (bs : list jsstring) :
  chain first bs -> chain first (filter f bs).
Proof.
  revert first. induction bs as [|b rest IH]; intros first H; [exact I|].
  destruct H as (H1 & H2 & H3 & H4). cbn [filter].
  destruct (f b).
  - cbn [chain]. repeat split; auto.
    intros Hne. apply H3. intros ->. now apply Hne.
  - apply chain_weaken. now apply IH.
Qed.

Lemma chain_map (h : jsstring -> jsstring) (first : bool) (bs : list jsstring) :
  Forall (fun b => no_blank (h b) = no_blank b
                   /\ starts_with [LF] (h b) = starts_with [LF] b
                   /\ ends_lf (h b) = ends_lf b) bs ->
  chain first bs -> chain first (map h bs).
Proof.
  revert first. induction bs as [|b rest IH]; intros first Hall H; [exact I|].
  inversion Hall as [|? ? (E1 & E2 & E3) Hrest]; subst.
  destruct H as (H1 & H2 & H3 & H4). cbn [map chain].
  rewrite E1, E2, E3. repeat split; auto.
  intros Hne. apply H3. intros ->. now apply Hne.
Qed.

(** Joining such blocks with a blank line and splitting again gives the
    blocks back. *)
Lemma split_blocks_join (bs : list jsstring) :
  bs <> [] -> Forall (fun b => b <> []) bs -> chain true bs ->
  split_blocks (join BLANK_LINE bs) = bs.
Proof.
  unfold split_blocks.
  induction bs as [|b rest IH]; intros Hne Hall Hc; [contradiction|].
  destruct Hc as (H1 & _ & H3 & H4).
  inversion Hall as [|? ? Hb Hrest]; subst.
  destruct rest as [|b2 rest'].
  - simpl. now apply split_blank_whole.
  - change (join BLANK_LINE (b :: b2 :: rest'))
      with (b ++ LF :: LF :: join BLANK_LINE (b2 :: rest')).
    rewrite split_blank_at_sep; [|assumption | apply H3; discriminate].
    f_equal.
    assert (Hl : starts_with [LF] (join BLANK_LINE (b2 :: rest')) = false).
    { destruct H4 as (_ & G2 & _).
      inversion Hrest as [|? ? Hb2 _]; subst.
      specialize (G2 eq_refl).
      destruct b2 as [|x b2']; [contradiction|].
      destruct rest'; simpl in *; exact G2. }
    rewrite split_blank_skip by exact Hl.
    apply IH; [discriminate | assumption | now apply chain_weaken].
Qed.

End Blocks.

(* ================================================================= *)
(** ** Facts about [convert_block] *)

Section ConvertBlock.

Lemma starts_with_mask (a b : jsstring) :
  lf_mask a = lf_mask b -> starts_with [LF] a = starts_with [LF] b.
Proof.
  destruct a as [|x a], b as [|y b]; try discriminate; [reflexivity|].
  intros H. rewrite !starts_with_LF_cons. now inversion H.
Qed.

Lemma no_blank_mask (a b : jsstring) :
  lf_mask a = lf_mask b -> no_blank a = no_blank b.
Proof.
  revert b. induction a as [|x a IH]; intros [|y b] H; try discriminate;
    [reflexivity|].
  inversion H as [[Hxy Hab]]. cbn [no_blank].
  now rewrite Hxy, (starts_with_mask _ _ Hab), (IH _ Hab).
Qed.

Lemma ends_lf_mask (a b : jsstring) :
  lf_mask a = lf_mask b -> ends_lf a = ends_lf b.
Proof.
  revert b. induction a as [|x a IH]; intros [|y b] H; try discriminate;
    [reflexivity|].
  inversion H as [[Hxy Hab]]. cbn [ends_lf].
  destruct a as [|x' a'], b as [|y' b']; try discriminate; [exact Hxy|].
  apply IH. exact Hab.
Qed.

Lemma dot_to_comma_eqb (x c : code_unit) :
  x <> DOT -> x <> COMMA -> (x =? dot_to_comma c)%N = (x =? c)%N.
Proof.
  intros Hd Hc. unfold dot_to_comma.
  destruct (N.eqb_spec c DOT) as [->|Hne]; [|reflexivity].
  destruct (N.eqb_spec x COMMA); [contradiction|].
  destruct (N.eqb_spec x DOT); [contradiction | reflexivity].
Qed.

Lemma lf_mask_fix (l : jsstring) : lf_mask (fix_timestamps l) = lf_mask l.
Proof.
  unfold lf_mask, fix_timestamps. rewrite map_map. apply map_ext.
  intros c. rewrite !(N.eqb_sym _ LF). apply dot_to_comma_eqb; discriminate.
Qed.

Lemma lf_mask_app (a b : jsstring) : lf_mask (a ++ b) = lf_mask a ++ lf_mask b.
Proof. apply map_app. Qed.

Lemma starts_with_fix (p l : jsstring) :
  Forall (fun x => x <> DOT /\ x <> COMMA) p ->
  starts_with p (fix_timestamps l) = starts_with p l.
Proof.
  revert l. induction p as [|x p IH]; intros l Hp; [reflexivity|].
  inversion Hp as [|? ? [Hd Hc] Hp']; subst.
  destruct l as [|c l]; [reflexivity|].
  cbn [fix_timestamps map starts_with].
  rewrite dot_to_comma_eqb by assumption. f_equal. now apply IH.
Qed.

Lemma ARROW_units : ARROW = [45; 45; 62]%N.
Proof. reflexivity. Qed.

Lemma includes_fix (l : jsstring) :
  includes ARROW (fix_timestamps l) = includes ARROW l.
Proof.
  assert (Hp : Forall (fun x => x <> DOT /\ x <> COMMA) ARROW).
  { rewrite ARROW_units. repeat constructor; discriminate. }
  induction l as [|c l IH]; [reflexivity|].
  change (fix_timestamps (c :: l)) with (dot_to_comma c :: fix_timestamps l).
  cbn [includes]. rewrite IH. f_equal.
  apply (starts_with_fix ARROW (c :: l) Hp).
Qed.

Lemma includes_ARROW_dash (l : jsstring) :
  includes ARROW l = true -> In 45%N l.
Proof.
  intros H. apply includes_iff in H. destruct H as (a & b & ->).
  rewrite ARROW_units. apply in_or_app. right. now left.
Qed.

Lemma fix_timestamps_idem (l : jsstring) :
  fix_timestamps (fix_timestamps l) = fix_timestamps l.
Proof.
  unfold fix_timestamps. rewrite map_map. apply map_ext.
  intros c. unfold dot_to_comma.
  destruct (N.eqb_spec c DOT); [reflexivity|].
  destruct (N.eqb_spec c DOT); [contradiction | reflexivity].
Qed.

Lemma fix_timestamps_no_dot (l : jsstring) : ~ In DOT (fix_timestamps l).
Proof.
  unfold fix_timestamps. intros H. apply in_map_iff in H.
  destruct H as (c & Hc & _). unfold dot_to_comma in Hc.
  destruct (N.eqb_spec c DOT); [discriminate | congruence].
Qed.

Lemma fix_timestamps_In (d : code_unit) (l : jsstring) :
  d <> DOT -> d <> COMMA -> In d (fix_timestamps l) <-> In d l.
Proof.
  intros Hd Hc. unfold fix_timestamps. rewrite in_map_iff. split.
  - intros (c & E & Hin). unfold dot_to_comma in E.
    destruct (N.eqb_spec c DOT); [congruence | now subst].
  - intros Hin. exists d. split; [|exact Hin]. unfold dot_to_comma.
    destruct (N.eqb_spec d DOT); [contradiction | reflexivity].
Qed.

Lemma findIndex_update {A : Type} (f : A -> bool) (g : A -> A) (i : nat)
    (l : list A) :
  (forall x, f (g x) = f x) -> findIndex f (update_at i g l) = findIndex f l.
Proof.
  intros Hfg. revert i. induction l as [|x l IH]; intros i; [reflexivity|].
  destruct i as [|j]; cbn [update_at findIndex].
  - now rewrite Hfg.
  - now rewrite IH.
Qed.

Lemma findIndex_Some {A : Type} (f : A -> bool) (l : list A) (i : nat) :
  findIndex f l = Some i -> exists x, nth_error l i = Some x /\ f x = true.
Proof.
  revert i. induction l as [|y l IH]; intros i H; [discriminate|].
  cbn [findIndex] in H. destruct (f y) eqn:Ey.
  - inversion H; subst. now exists y.
  - destruct (findIndex f l) as [j|]; [|discriminate].
    inversion H; subst. destruct (IH j eq_refl) as (x & Hx & Hfx).
    now exists x.
Qed.

Lemma update_at_idem {A : Type} (g : A -> A) (i : nat) (l : list A) :
  (forall x, g (g x) = g x) -> update_at i g (update_at i g l) = update_at i g l.
Proof.
  intros Hg. revert i. induction l as [|x l IH]; intros i; [reflexivity|].
  destruct i as [|j]; cbn [update_at].
  - now rewrite Hg.
  - now rewrite IH.
Qed.

Lemma update_at_Forall {A : Type} (P : A -> Prop) (g : A -> A) (i : nat)
    (l : list A) :
  (forall x, P x -> P (g x)) -> Forall P l -> Forall P (update_at i g l).
Proof.
  intros Hg. revert i. induction l as [|x l IH]; intros i H; [constructor|].
  inversion H; subst. destruct i as [|j]; cbn [update_at]; constructor; auto.
Qed.

Lemma update_at_nth {A : Type} (g : A -> A) (i : nat) (l : list A) (x : A) :
  nth_error l i = Some x -> In (g x) (update_at i g l).
Proof.
  revert i. induction l as [|y l IH]; intros i H.
  - destruct i; discriminate.
  - destruct i as [|j]; cbn [update_at].
    + inversion H; subst. now left.
    + right. now apply IH.
Qed.

Lemma update_at_not_nil {A : Type} (g : A -> A) (i : nat) (l : list A) :
  l <> [] -> update_at i g l <> [].
Proof. destruct l, i; simpl; congruence. Qed.

Lemma In_join (sep l : jsstring) (parts : list jsstring) (c : code_unit) :
  In l parts -> In c l -> In c (join sep parts).
Proof.
  induction parts as [|p rest IH]; intros Hl Hc; [contradiction|].
  destruct rest as [|p2 rest'].
  - destruct Hl as [->|[]]. exact Hc.
  - change (join sep (p :: p2 :: rest'))
      with (p ++ sep ++ join sep (p2 :: rest')).
    destruct Hl as [->|Hl].
    + apply in_or_app. now left.
    + apply in_or_app. right. apply in_or_app. right. now apply IH.
Qed.

Lemma lf_mask_join_update (i : nat) (lines : list jsstring) :
  lf_mask (join [LF] (update_at i fix_timestamps lines))
  = lf_mask (join [LF] lines).
Proof.
  revert i. induction lines as [|l rest IH]; intros i; [reflexivity|].
  destruct i as [|j]; cbn [update_at].
  - destruct rest as [|l2 rest'].
    + apply lf_mask_fix.
    + change (join [LF] (?x :: l2 :: rest'))
        with (x ++ [LF] ++ join [LF] (l2 :: rest')).
      now rewrite !lf_mask_app, lf_mask_fix.
  - specialize (IH j). destruct rest as [|l2 rest'].
    + reflexivity.
    + pose proof (update_at_not_nil fix_timestamps j (l2 :: rest')) as Hn.
      destruct (update_at j fix_timestamps (l2 :: rest')) as [|u us] eqn:Eu.
      { exfalso. apply Hn; [discriminate | reflexivity]. }
      change (join [LF] (l :: u :: us)) with (l ++ [LF] ++ join [LF] (u :: us)).
      change (join [LF] (l :: l2 :: rest'))
        with (l ++ [LF] ++ join [LF] (l2 :: rest')).
      now rewrite !lf_mask_app, IH.
Qed.

Lemma convert_block_no_time (b : jsstring) :
  has_time_line b = false -> convert_block b = [].
Proof.
  unfold has_time_line, convert_block.
  now destruct (findIndex (includes ARROW) (split_on LF b)).
Qed.

Lemma convert_block_mask (b : jsstring) :
  has_time_line b = true -> lf_mask (convert_block b) = lf_mask b.
Proof.
  unfold has_time_line, convert_block.
  destruct (findIndex (includes ARROW) (split_on LF b)) as [i|]; [|discriminate].
  intros _. rewrite lf_mask_join_update. now rewrite join_split_on.
Qed.

Lemma split_on_convert_block (b : jsstring) (i : nat) :
  findIndex (includes ARROW) (split_on LF b) = Some i ->
  split_on LF (convert_block b) = update_at i fix_timestamps (split_on LF b).
Proof.
  intros Hi. unfold convert_block. rewrite Hi.
  apply split_on_join.
  - apply update_at_not_nil, split_on_not_nil.
  - apply update_at_Forall; [|apply split_on_free].
    intros l Hl Hin. apply Hl.
    apply (fix_timestamps_In LF l); [discriminate | discriminate | exact Hin].
Qed.

Lemma has_time_line_convert (b : jsstring) :
  has_time_line (convert_block b) = has_time_line b.
Proof.
  destruct (has_time_line b) eqn:E.
  - unfold has_time_line in *.
    destruct (findIndex (includes ARROW) (split_on LF b)) as [i|] eqn:Ei;
      [|discriminate].
    rewrite (split_on_convert_block b i Ei).
    rewrite findIndex_update by apply includes_fix. now rewrite Ei.
  - now rewrite (convert_block_no_time b E).
Qed.

Lemma convert_block_idem (b : jsstring) :
  convert_block (convert_block b) = convert_block b.
Proof.
  destruct (findIndex (includes ARROW) (split_on LF b)) as [i|] eqn:Ei.
  - unfold convert_block at 1. rewrite (split_on_convert_block b i Ei).
    rewrite findIndex_update by apply includes_fix. rewrite Ei.
    rewrite update_at_idem by apply fix_timestamps_idem.
    unfold convert_block. now rewrite Ei.
  - assert (E : convert_block b = []) by (unfold convert_block; now rewrite Ei).
    rewrite E. reflexivity.
Qed.

Lemma not_blank_convert (b : jsstring) :
  not_blank (convert_block b) = has_time_line b.
Proof.
  destruct (has_time_line b) eqn:E.
  - unfold has_time_line in E. unfold convert_block, not_blank.
    destruct (findIndex (includes ARROW) (split_on LF b)) as [i|] eqn:Ei;
      [|discriminate].
    destruct (findIndex_Some _ _ _ Ei) as (l & Hl & Harrow).
    assert (Hin : In 45%N (join [LF] (update_at i fix_timestamps (split_on LF b)))).
    { apply In_join with (l := fix_timestamps l).
      - now apply update_at_nth.
      - apply fix_timestamps_In; [discriminate | discriminate |].
        now apply includes_ARROW_dash. }
    pose proof (trim_not_nil _ 45%N Hin eq_refl) as Hn.
    destruct (trim _); [contradiction | reflexivity].
  - now rewrite (convert_block_no_time b E).
Qed.

Lemma filter_map_convert (bs : list jsstring) :
  filter not_blank (map convert_block bs)
  = map convert_block (filter has_time_line bs).
Proof.
  induction bs as [|b bs IH]; [reflexivity|].
  cbn [map filter]. rewrite not_blank_convert.
  destruct (has_time_line b); cbn [map]; now rewrite IH.
Qed.

Lemma vttToSrt_blocks (vtt : jsstring) :
  vtt <> [] -> vttToSrt vtt = join BLANK_LINE (srt_blocks vtt).
Proof.
  intros Hne. unfold vttToSrt, srt_blocks.
  destruct vtt; [contradiction|]. cbn [is_empty].
  now rewrite filter_map_convert.
Qed.

Lemma srt_blocks_time (vtt b : jsstring) :
  In b (srt_blocks vtt) -> has_time_line b = true.
Proof.
  unfold srt_blocks. intros H. apply in_map_iff in H.
  destruct H as (b0 & <- & Hin). apply filter_In in Hin.
  rewrite has_time_line_convert. tauto.
Qed.

Lemma has_time_line_not_nil (b : jsstring) : has_time_line b = true -> b <> [].
Proof. intros H ->. discriminate. Qed.

Lemma srt_blocks_chain (vtt : jsstring) : chain true (srt_blocks vtt).
Proof.
  unfold srt_blocks. apply chain_map.
  - apply Forall_forall. intros b Hb. apply filter_In in Hb.
    destruct Hb as [_ Hb]. pose proof (convert_block_mask b Hb) as Hm.
    repeat split.
    + now apply no_blank_mask.
    + now apply starts_with_mask.
    + now apply ends_lf_mask.
  - apply chain_filter. apply (split_blank_chain (strip_header vtt) false).
Qed.

(** Splitting the result of [vttToSrt] on blank lines gives back the
    converted blocks. *)
Lemma split_blocks_vttToSrt (vtt : jsstring) :
  vtt <> [] -> srt_blocks vtt <> [] ->
  split_blocks (vttToSrt vtt) = srt_blocks vtt.
Proof.
  intros Hne Hb. rewrite vttToSrt_blocks by assumption.
  apply split_blocks_join; [assumption | | apply srt_blocks_chain].
  apply Forall_forall. intros b Hin.
  apply has_time_line_not_nil. now apply (srt_blocks_time vtt).
Qed.

End ConvertBlock.

(* ================================================================= *)
(** ** Well-formed cues *)

Section Cues.

Lemma line_ok_spec (l : jsstring) :
  line_ok l = true <-> l <> [] /\ ~ In LF l.
Proof.
  unfold line_ok. rewrite andb_true_iff, !negb_true_iff. split.
  - intros [H1 H2]. split.
    + intros ->. discriminate.
    + intros Hin. assert (E : existsb (fun c => (c =? LF)%N) l = true).
      { apply existsb_exists. exists LF. split; [exact Hin | apply N.eqb_refl]. }
      congruence.
  - intros [H1 H2]. split.
    + destruct l; [contradiction | reflexivity].
    + destruct (existsb (fun c => (c =? LF)%N) l) eqn:E; [|reflexivity].
      apply existsb_exists in E. destruct E as (c & Hc & Ec).
      apply N.eqb_eq in Ec. subst c. contradiction.
Qed.

Lemma no_blank_free (l t : jsstring) :
  ~ In LF l -> no_blank (l ++ t) = no_blank t.
Proof.
  induction l as [|c l IH]; intros H; [reflexivity|].
  cbn [app no_blank].
  destruct (N.eqb_spec c LF) as [->|Hne]; [exfalso; apply H; now left|].
  cbn [andb negb]. apply IH. intros Hin. apply H. now right.
Qed.

Lemma ends_lf_app (a t : jsstring) :
  t <> [] -> ends_lf (a ++ t) = ends_lf t.
Proof.
  intros Ht. induction a as [|c a IH]; [reflexivity|].
  cbn [app ends_lf]. destruct (a ++ t) eqn:E; [|exact IH].
  destruct a; [contradiction | discriminate].
Qed.

Lemma ends_lf_In (l : jsstring) : ends_lf l = true -> In LF l.
Proof.
  induction l as [|c l IH]; [discriminate|].
  cbn [ends_lf]. destruct l as [|d l'].
  - intros H. apply N.eqb_eq in H. now left.
  - intros H. right. now apply IH.
Qed.

Lemma starts_with_LF_app (l t : jsstring) :
  l <> [] -> ~ In LF l -> starts_with [LF] (l ++ t) = false.
Proof.
  destruct l as [|c l]; intros Hne H; [contradiction|].
  cbn [app]. rewrite starts_with_LF_cons.
  destruct (N.eqb_spec c LF) as [->|]; [exfalso; apply H; now left | reflexivity].
Qed.

(** The lines of a cue, joined, form one block. *)
Lemma join_lines_block (lines : list jsstring) :
  lines <> [] -> Forall (fun l => line_ok l = true) lines ->
  no_blank (join [LF] lines) = true
  /\ ends_lf (join [LF] lines) = false
  /\ starts_with [LF] (join [LF] lines) = false
  /\ join [LF] lines <> [].
Proof.
  induction lines as [|l rest IH]; intros Hne Hall; [contradiction|].
  inversion Hall as [|? ? Hl Hrest]; subst.
  apply line_ok_spec in Hl. destruct Hl as [Hl1 Hl2].
  destruct rest as [|l2 rest'].
  - cbn [join]. repeat split.
    + rewrite <- (app_nil_r l). now rewrite no_blank_free.
    + destruct (ends_lf l) eqn:E; [|reflexivity].
      exfalso. now apply Hl2, ends_lf_In.
    + rewrite <- (app_nil_r l). now apply starts_with_LF_app.
    + exact Hl1.
  - destruct IH as (I1 & I2 & I3 & I4); [discriminate | assumption |].
    change (join [LF] (l :: l2 :: rest'))
      with (l ++ LF :: join [LF] (l2 :: rest')).
    repeat split.
    + rewrite no_blank_free by assumption.
      cbn [no_blank]. now rewrite I3, I1, N.eqb_refl.
    + rewrite ends_lf_app by discriminate.
      cbn [ends_lf]. destruct (join [LF] (l2 :: rest')); [contradiction | exact I2].
    + now apply starts_with_LF_app.
    + destruct l; [contradiction | discriminate].
Qed.

Lemma cue_lines_ok (c : Cue) :
  well_formed_cue c = true ->
  Forall (fun l => line_ok l = true) (time_line c :: text_lines c)
  /\ includes ARROW (time_line c) = true.
Proof.
  unfold well_formed_cue. rewrite !andb_true_iff.
  intros [[H1 H2] H3]. split; [|exact H2].
  constructor; [exact H1|]. apply Forall_forall. intros l Hl.
  rewrite forallb_forall in H3. now apply H3.
Qed.

Lemma split_on_render (c : Cue) :
  well_formed_cue c = true ->
  split_on LF (render_cue c) = time_line c :: text_lines c.
Proof.
  intros H. destruct (cue_lines_ok c H) as [Hall _].
  apply split_on_join; [discriminate|].
  apply Forall_forall. intros l Hl.
  rewrite Forall_forall in Hall. now apply line_ok_spec, Hall.
Qed.

Lemma has_time_line_render (c : Cue) :
  well_formed_cue c = true -> has_time_line (render_cue c) = true.
Proof.
  intros H. unfold has_time_line. rewrite (split_on_render c H).
  destruct (cue_lines_ok c H) as [_ Ha]. cbn [findIndex]. now rewrite Ha.
Qed.

Lemma convert_block_render (c : Cue) :
  well_formed_cue c = true ->
  convert_block (render_cue c) = render_cue (srt_cue c).
Proof.
  intros H. unfold convert_block. rewrite (split_on_render c H).
  destruct (cue_lines_ok c H) as [_ Ha]. cbn [findIndex]. now rewrite Ha.
Qed.

Lemma line_ok_fix (l : jsstring) :
  line_ok l = true -> line_ok (fix_timestamps l) = true.
Proof.
  rewrite !line_ok_spec. intros [H1 H2]. split.
  - destruct l; [contradiction | discriminate].
  - intros Hin. apply H2.
    apply (fix_timestamps_In LF l); [discriminate | discriminate | exact Hin].
Qed.

Lemma well_formed_srt_cue (c : Cue) :
  well_formed_cue c = true -> well_formed_cue (srt_cue c) = true.
Proof.
  unfold well_formed_cue. rewrite !andb_true_iff. cbn [srt_cue time_line text_lines].
  intros [[H1 H2] H3]. repeat split.
  - now apply line_ok_fix.
  - now rewrite includes_fix.
  - exact H3.
Qed.

Lemma srt_block_of_render (c : Cue) :
  well_formed_cue c = true -> srt_block_of c (render_cue (srt_cue c)).
Proof.
  intros H. pose proof (well_formed_srt_cue c H) as H'.
  pose proof (split_on_render (srt_cue c) H') as Hs.
  cbn [srt_cue time_line text_lines] in Hs.
  destruct (cue_lines_ok c H) as [_ Ha].
  unfold srt_block_of. rewrite Hs. repeat split.
  - now rewrite includes_fix.
  - apply fix_timestamps_no_dot.
  - intros l [Hl|Hl] E; [|exact Hl].
    exfalso. subst l.
    assert (Hf : includes ARROW (fix_timestamps (time_line c)) = true)
      by now rewrite includes_fix.
    rewrite E in Hf. discriminate Hf.
Qed.

End Cues.

(* ================================================================= *)
(** ** The header pattern *)

Section Header.

Lemma is_white_space_LF : is_white_space LF = true.
Proof. reflexivity. Qed.

Lemma not_white_space_newline (y : code_unit) :
  is_white_space y = false -> (y =? LF)%N = false /\ (y =? CR)%N = false.
Proof.
  intros H. split.
  - destruct (N.eqb_spec y LF) as [->|]; [discriminate | reflexivity].
  - destruct (N.eqb_spec y CR) as [->|]; [discriminate | reflexivity].
Qed.

Lemma closed_start_line (l t : jsstring) :
  ~ In LF l -> (exists x, In x l /\ is_white_space x = false) ->
  closed_start (l ++ t).
Proof.
  induction l as [|c l IH]; intros Hlf (x & Hx & Hws); [contradiction|].
  destruct (is_white_space c) eqn:Ec.
  - destruct Hx as [->|Hx]; [congruence|].
    destruct IH as (w & y & r & E & Hw & Hy).
    + intros Hin. apply Hlf. now right.
    + now exists x.
    + exists (c :: w), y, r. cbn [app]. rewrite E. repeat split; auto.
      constructor; [|exact Hw]. split; [exact Ec|].
      intros ->. apply Hlf. now left.
  - exists [], c, (l ++ t). repeat split; auto.
Qed.

Lemma newlines_plus_closed (T : jsstring) :
  closed_start T -> newlines_plus T = None /\ newlines_star T = T.
Proof.
  intros (w & y & r & -> & Hw & Hy).
  destruct (not_white_space_newline y Hy) as [Hy1 Hy2].
  destruct w as [|c w].
  - cbn [app newlines_plus newlines_star]. now rewrite Hy1, Hy2.
  - inversion Hw as [|? ? [Hc1 Hc2] Hw']; subst.
    cbn [app newlines_plus newlines_star].
    destruct (N.eqb_spec c LF); [contradiction|].
    destruct (c =? CR)%N; [|now split].
    destruct w as [|d w'].
    + cbn [app]. now rewrite Hy1.
    + inversion Hw' as [|? ? [_ Hd] _]; subst. cbn [app].
      destruct (N.eqb_spec d LF); [contradiction | now split].
Qed.

Lemma spaces_then_newlines_closed (T : jsstring) :
  closed_start T -> spaces_then_newlines T = None.
Proof.
  intros HT. pose proof HT as (w & y & r & E & Hw & Hy). subst T.
  induction w as [|c w IH].
  - cbn [app spaces_then_newlines]. rewrite Hy.
    now destruct (newlines_plus_closed _ HT).
  - inversion Hw as [|? ? [Hc1 Hc2] Hw']; subst.
    cbn [app spaces_then_newlines]. rewrite Hc1.
    rewrite IH; [|now exists w, y, r | exact Hw'].
    now destruct (newlines_plus_closed _ HT).
Qed.

Lemma spaces_then_newlines_gap (k : nat) (T : jsstring) :
  closed_start T -> spaces_then_newlines (repeat LF (S k) ++ T) = Some T.
Proof.
  intros HT. induction k as [|k IH].
  - cbn [repeat app spaces_then_newlines]. rewrite is_white_space_LF.
    rewrite (spaces_then_newlines_closed _ HT).
    cbn [newlines_plus]. rewrite N.eqb_refl.
    now destruct (newlines_plus_closed _ HT) as [_ ->].
  - change (repeat LF (S (S k)) ++ T) with (LF :: (repeat LF (S k) ++ T)).
    cbn [spaces_then_newlines]. now rewrite is_white_space_LF, IH.
Qed.

Lemma skipn_length_app {A : Type} (a b : list A) :
  skipn (List.length a) (a ++ b) = b.
Proof. induction a as [|x a IH]; [reflexivity | exact IH]. Qed.

Lemma strip_header_gap (k : nat) (T : jsstring) :
  closed_start T -> strip_header (WEBVTT ++ repeat LF (S k) ++ T) = T.
Proof.
  intros HT. unfold strip_header.
  rewrite starts_with_app, skipn_length_app.
  now rewrite (spaces_then_newlines_gap k _ HT).
Qed.

Lemma closed_start_render (c : Cue) (t : jsstring) :
  well_formed_cue c = true -> closed_start (render_cue c ++ t).
Proof.
  intros H. destruct (cue_lines_ok c H) as [Hall Ha].
  inversion Hall as [|? ? Hl _]; subst.
  apply line_ok_spec in Hl. destruct Hl as [_ Hlf].
  assert (Hx : exists x, In x (time_line c) /\ is_white_space x = false).
  { exists 45%N. split; [now apply includes_ARROW_dash | reflexivity]. }
  unfold render_cue. destruct (text_lines c) as [|l2 rest].
  - cbn [join]. now apply closed_start_line.
  - change (join [LF] (time_line c :: l2 :: rest))
      with (time_line c ++ LF :: join [LF] (l2 :: rest)).
    rewrite <- app_assoc. now apply closed_start_line.
Qed.

Lemma split_blank_run (k : nat) (t : jsstring) :
  split_blank true (repeat LF k ++ t) = split_blank true t.
Proof.
  induction k as [|k IH]; [reflexivity|].
  cbn [repeat app split_blank andb]. now rewrite N.eqb_refl.
Qed.

Lemma split_blocks_two (gap : nat) (R1 R2 : jsstring) :
  no_blank R1 = true -> ends_lf R1 = false ->
  no_blank R2 = true -> starts_with [LF] R2 = false ->
  split_blocks (R1 ++ repeat LF (S (S gap)) ++ R2) = [R1; R2].
Proof.
  intros H1 H2 H3 H4. unfold split_blocks.
  change (R1 ++ repeat LF (S (S gap)) ++ R2)
    with (R1 ++ LF :: LF :: (repeat LF gap ++ R2)).
  rewrite split_blank_at_sep by assumption.
  rewrite split_blank_run, split_blank_skip by assumption.
  now rewrite split_blank_whole.
Qed.

Lemma srt_blocks_two_cues (gap1 gap2 : nat) (c1 c2 : Cue) :
  well_formed_cue c1 = true -> well_formed_cue c2 = true ->
  srt_blocks (two_cue_vtt (S gap1) (S (S gap2)) c1 c2)
  = [render_cue (srt_cue c1); render_cue (srt_cue c2)].
Proof.
  intros W1 W2. unfold srt_blocks, two_cue_vtt.
  rewrite strip_header_gap by now apply closed_start_render.
  destruct (cue_lines_ok c1 W1) as [L1 _].
  destruct (cue_lines_ok c2 W2) as [L2 _].
  destruct (join_lines_block (time_line c1 :: text_lines c1)) as (A1 & A2 & _);
    [discriminate | exact L1 |].
  destruct (join_lines_block (time_line c2 :: text_lines c2)) as (B1 & _ & B3 & _);
    [discriminate | exact L2 |].
  rewrite split_blocks_two by assumption.
  cbn [filter]. rewrite !has_time_line_render by assumption.
  cbn [map]. now rewrite !convert_block_render.
Qed.

End Header.

(* ================================================================= *)
(** ** The converter: the claims *)

Section Converter.

(** C5, evaluated on a well-formed text of two cues whose line ends are
    CR LF.  The header pattern takes [\r\n] for a line end, but the blocks
    are split at [\n\n+] only, which never occurs between [\r\n] line ends:
    the whole text is one block, only its first time-range line is
    rewritten, and the second keeps its dots. *)
Theorem crlf_two_cues_one_block :
  split_blocks (vttToSrt crlf_vtt) = [crlf_srt]
  /\ List.length (split_blocks (vttToSrt crlf_vtt)) = 1
  /\ includes (lit "00:03.000 --> 00:04.000") (vttToSrt crlf_vtt) = true.
Proof. repeat split. Qed.

(** C6.  [vttToSrt] returns a string for every input.  A block without a
    line that contains [-->] is mapped to the empty string and filtered out:
    the result is the join of the converted blocks that have such a line,
    and, unless the result is empty, each of its blocks has one. *)
Theorem vttToSrt_drops_blocks_without_time_line (vtt : jsstring) :
  (exists srt, vttToSrt vtt = srt)
  /\ (forall block, has_time_line block = false ->
        convert_block block = [] /\ not_blank (convert_block block) = false)
  /\ vttToSrt vtt
     = join BLANK_LINE
         (map convert_block
            (filter has_time_line (split_blocks (strip_header vtt))))
  /\ (vttToSrt vtt = []
      \/ Forall (fun b => has_time_line b = true) (split_blocks (vttToSrt vtt))).
Proof.
  split; [now exists (vttToSrt vtt)|].
  split.
  { intros block H. rewrite not_blank_convert. split; [|exact H].
    now apply convert_block_no_time. }
  destruct vtt as [|c vtt'] eqn:E; [split; [reflexivity | now left]|].
  rewrite <- E.
  assert (Hne : vtt <> []) by (rewrite E; discriminate).
  split; [now apply vttToSrt_blocks|].
  destruct (srt_blocks vtt) as [|b bs] eqn:Eb.
  - left. rewrite vttToSrt_blocks by assumption. now rewrite Eb.
  - right. rewrite split_blocks_vttToSrt; [|assumption | rewrite Eb; discriminate].
    apply Forall_forall. intros x Hx. now apply (srt_blocks_time vtt).
Qed.

Lemma vttToSrt_drops_blocks_without_time_line_witness :
  vttToSrt note_then_cue = render_cue (srt_cue cue_hello).
Proof.
  destruct (vttToSrt_drops_blocks_without_time_line note_then_cue)
    as (_ & _ & H & _).
  rewrite H. reflexivity.
Defined.

(** C10, as the claim states it, fails: a text whose first cue has the
    identifier line [WEBVTT] keeps that line in the result, and a second
    pass takes it for the header. *)
Lemma vttToSrt_not_idempotent :
  vttToSrt header_twice = WEBVTT ++ [LF] ++ lit "00:01,000 --> 00:02,000"
  /\ vttToSrt (vttToSrt header_twice) = lit "00:01,000 --> 00:02,000"
  /\ vttToSrt (vttToSrt header_twice) <> vttToSrt header_twice.
Proof. repeat split. vm_compute. discriminate. Qed.

(** C10, amended.  When the result of [vttToSrt] does not itself start with
    a header that the header pattern removes, converting it again leaves it
    unchanged. *)
Theorem vttToSrt_idempotent_without_header (vtt : jsstring) :
  strip_header (vttToSrt vtt) = vttToSrt vtt ->
  vttToSrt (vttToSrt vtt) = vttToSrt vtt.
Proof.
  intros Hh.
  destruct vtt as [|c vtt'] eqn:E; [reflexivity|]. rewrite <- E in *.
  assert (Hne : vtt <> []) by (rewrite E; discriminate).
  destruct (vttToSrt vtt) as [|d out'] eqn:Eo; [reflexivity|]. rewrite <- Eo in *.
  assert (Hout : vttToSrt vtt <> []) by (rewrite Eo; discriminate).
  assert (Hb : srt_blocks vtt <> []).
  { intros Hb. apply Hout. rewrite vttToSrt_blocks by assumption. now rewrite Hb. }
  rewrite (vttToSrt_blocks _ Hout). rewrite (vttToSrt_blocks _ Hne) at 2.
  f_equal. unfold srt_blocks at 1.
  rewrite Hh, (split_blocks_vttToSrt _ Hne Hb).
  assert (Hf : filter has_time_line (srt_blocks vtt) = srt_blocks vtt).
  { apply forallb_filter_id. apply forallb_forall. intros b Hin.
    now apply (srt_blocks_time vtt). }
  rewrite Hf. unfold srt_blocks. rewrite map_map.
  apply map_ext. intros b. apply convert_block_idem.
Qed.

Lemma vttToSrt_idempotent_without_header_witness :
  vttToSrt (vttToSrt sample_vtt) = vttToSrt sample_vtt.
Proof.
  apply (vttToSrt_idempotent_without_header sample_vtt). reflexivity.
Defined.

End Converter.

(* ================================================================= *)
(** ** The clean-up of the model's text *)

Section CleanText.

Lemma fence_here_leading (s : jsstring) :
  fence_here s = true <-> 3 <= leading_backticks s.
Proof.
  destruct s as [|a [|b [|c s]]]; cbn [fence_here leading_backticks].
  - split; [discriminate | lia].
  - destruct (is_backtick a); split; try discriminate; lia.
  - destruct (is_backtick a), (is_backtick b); split; try discriminate; lia.
  - destruct (is_backtick a), (is_backtick b), (is_backtick c);
      cbn [andb]; split; try discriminate; try lia; reflexivity.
Qed.

Lemma starts_with_FENCE (s : jsstring) : starts_with FENCE s = fence_here s.
Proof.
  change FENCE with [BACKTICK; BACKTICK; BACKTICK].
  destruct s as [|a [|b [|c s]]]; cbn [starts_with fence_here];
    unfold is_backtick; rewrite ?(N.eqb_sym BACKTICK);
    rewrite ?andb_false_r, ?andb_true_r, ?andb_assoc; reflexivity.
Qed.

Lemma remove_fence_leading (n : nat) :
  forall s, List.length s <= n ->
            leading_backticks (remove_fence s) <= leading_backticks s.
Proof.
  induction n as [|n IH]; intros s Hlen.
  - destruct s; [apply Nat.le_refl | simpl in Hlen; lia].
  - destruct s as [|c s1]; [apply Nat.le_refl|].
    cbn [remove_fence]. destruct (fence_here (c :: s1)) eqn:Ef.
    + destruct s1 as [|b [|a s3]]; try discriminate Ef.
      cbn [fence_here] in Ef. apply andb_true_iff in Ef. destruct Ef as [Ef Ea].
      apply andb_true_iff in Ef. destruct Ef as [Ec Eb].
      cbn [leading_backticks]. rewrite Ec, Eb, Ea.
      simpl in Hlen. specialize (IH s3). lia.
    + cbn [leading_backticks]. destruct (is_backtick c); [|lia].
      simpl in Hlen. specialize (IH s1). lia.
Qed.

Lemma remove_fence_none (n : nat) :
  forall s, List.length s <= n -> includes FENCE (remove_fence s) = false.
Proof.
  induction n as [|n IH]; intros s Hlen.
  - destruct s; [reflexivity | simpl in Hlen; lia].
  - destruct s as [|c s1]; [reflexivity|].
    cbn [remove_fence]. destruct (fence_here (c :: s1)) eqn:Ef.
    + destruct s1 as [|b [|a s3]]; try reflexivity.
      apply IH. simpl in Hlen. lia.
    + cbn [includes]. rewrite IH by (simpl in Hlen; lia).
      rewrite orb_false_r, starts_with_FENCE.
      destruct (fence_here (c :: remove_fence s1)) eqn:Eg; [|reflexivity].
      apply fence_here_leading in Eg.
      assert (Hs : ~ 3 <= leading_backticks (c :: s1)).
      { intros H. apply fence_here_leading in H. congruence. }
      cbn [leading_backticks] in *. destruct (is_backtick c); [|lia].
      pose proof (remove_fence_leading (List.length s1) s1 (Nat.le_refl _)). lia.
Qed.

Lemma includes_trim (p s : jsstring) :
  includes p s = false -> includes p (trim s) = false.
Proof.
  intros H. destruct (includes p (trim s)) eqn:E; [|reflexivity].
  destruct (trim_infix s) as (a & b & Hs).
  rewrite Hs in H. now rewrite (includes_infix p a (trim s) b E) in H.
Qed.

Lemma trim_trimmed (s : jsstring) : trimmed (trim s).
Proof.
  unfold trimmed, trim. split; [|apply trim_end_last].
  pose proof (trim_start_head s) as Hh.
  destruct (trim_start s) as [|c r]; [exact I|].
  destruct (trim_end_head (c :: r) c r Hh) as [r' ->]. exact Hh.
Qed.

Lemma cleanText_no_fence (text : jsstring) :
  includes FENCE (cleanText text) = false.
Proof.
  unfold cleanText. apply includes_trim.
  apply (remove_fence_none (List.length (remove_fence_vtt text))), Nat.le_refl.
Qed.

Lemma fence_vtt_needs_backtick (c : code_unit) (s : jsstring) :
  c <> BACKTICK -> fence_vtt_here (c :: s) = false.
Proof.
  intros Hc. destruct s as [|b [|a [|v [|t1 [|t2 s]]]]]; try reflexivity.
  cbn [fence_vtt_here]. unfold is_backtick at 1.
  destruct (N.eqb_spec c BACKTICK); [contradiction | reflexivity].
Qed.

Lemma fence_needs_backtick (c : code_unit) (s : jsstring) :
  c <> BACKTICK -> fence_here (c :: s) = false.
Proof.
  intros Hc. destruct s as [|b [|a s]]; try reflexivity.
  cbn [fence_here]. unfold is_backtick at 1.
  destruct (N.eqb_spec c BACKTICK); [contradiction | reflexivity].
Qed.

Lemma remove_fence_vtt_plain (p t : jsstring) :
  ~ In BACKTICK p -> remove_fence_vtt (p ++ t) = p ++ remove_fence_vtt t.
Proof.
  induction p as [|c p IH]; intros H; [reflexivity|].
  cbn [app remove_fence_vtt].
  rewrite fence_vtt_needs_backtick by (intros ->; apply H; now left).
  f_equal. apply IH. intros Hin. apply H. now right.
Qed.

Lemma remove_fence_plain (p t : jsstring) :
  ~ In BACKTICK p -> remove_fence (p ++ t) = p ++ remove_fence t.
Proof.
  induction p as [|c p IH]; intros H; [reflexivity|].
  cbn [app remove_fence].
  rewrite fence_needs_backtick by (intros ->; apply H; now left).
  f_equal. apply IH. intros Hin. apply H. now right.
Qed.

Lemma cleanText_wrapped (payload : jsstring) :
  ~ In BACKTICK payload ->
  cleanText (FENCE_VTT ++ payload ++ FENCE) = trim payload.
Proof.
  intros H. unfold cleanText.
  assert (E1 : remove_fence_vtt (FENCE_VTT ++ payload ++ FENCE)
               = payload ++ FENCE).
  { change (remove_fence_vtt (FENCE_VTT ++ payload ++ FENCE))
      with (remove_fence_vtt (payload ++ FENCE)).
    now rewrite remove_fence_vtt_plain. }
  rewrite E1, remove_fence_plain by assumption.
  change (remove_fence FENCE) with (@nil code_unit). now rewrite app_nil_r.
Qed.

End CleanText.

(* ================================================================= *)
(** ** Facts about the queue handlers *)

Section QueueFacts.

Lemma str_eqb_eq (a b : jsstring) : str_eqb a b = true <-> a = b.
Proof.
  revert b. induction a as [|x a IH]; intros [|y b]; cbn [str_eqb];
    try (split; [discriminate | congruence]); [tauto|].
  rewrite andb_true_iff, N.eqb_eq, IH. split.
  - intros [-> ->]. reflexivity.
  - intros H. inversion H. auto.
Qed.

Lemma str_eqb_refl (a : jsstring) : str_eqb a a = true.
Proof. now apply str_eqb_eq. Qed.

Lemma str_eqb_neq (a b : jsstring) : str_eqb a b = false <-> a <> b.
Proof.
  split.
  - intros H E. apply str_eqb_eq in E. congruence.
  - intros H. destruct (str_eqb a b) eqn:E; [|reflexivity].
    apply str_eqb_eq in E. contradiction.
Qed.

Lemma update_id_ids (target : jsstring) (f : QueueItem -> QueueItem)
    (q : list QueueItem) :
  (forall x, id (f x) = id x) -> ids (update_id target f q) = ids q.
Proof.
  intros Hf. unfold ids, update_id. rewrite map_map. apply map_ext.
  intros x. destruct (str_eqb (id x) target); [apply Hf | reflexivity].
Qed.

Lemma update_id_absent (target : jsstring) (f : QueueItem -> QueueItem)
    (q : list QueueItem) :
  absent target q -> update_id target f q = q.
Proof.
  unfold absent, update_id. induction 1 as [|x q Hx _ IH]; [reflexivity|].
  cbn [map]. rewrite IH. apply str_eqb_neq in Hx. now rewrite Hx.
Qed.

(** An update by id changes no job with another id, and applies [f] to the
    jobs with that id. *)
Lemma update_id_pointwise (target : jsstring) (f : QueueItem -> QueueItem)
    (q : list QueueItem) :
  Forall2 (fun old new => (id old = target -> new = f old)
                          /\ (id old <> target -> new = old))
          q (update_id target f q).
Proof.
  unfold update_id. induction q as [|x q IH]; [constructor|].
  cbn [map]. constructor; [|exact IH].
  destruct (str_eqb (id x) target) eqn:E.
  - apply str_eqb_eq in E. split; [reflexivity | contradiction].
  - apply str_eqb_neq in E. split; [contradiction | reflexivity].
Qed.

Lemma find_first {A : Type} (p : A -> bool) (l : list A) (x : A) :
  find p l = Some x ->
  exists before after,
    l = before ++ x :: after /\ p x = true
    /\ Forall (fun y => p y = false) before.
Proof.
  induction l as [|y l IH]; [discriminate|].
  cbn [find]. destruct (p y) eqn:Ey.
  - intros H. inversion H; subst. exists [], l. repeat split; auto.
  - intros H. destruct (IH H) as (b & a & -> & Hx & Hb).
    exists (y :: b), a. repeat split; auto.
Qed.

Lemma update_id_at (f : QueueItem -> QueueItem) (before after : list QueueItem)
    (x : QueueItem) :
  nth_error (update_id (id x) f (before ++ x :: after)) (List.length before)
  = Some (f x).
Proof.
  unfold update_id. rewrite map_app. cbn [map].
  rewrite nth_error_app2; rewrite length_map; [|apply Nat.le_refl].
  rewrite Nat.sub_diag. cbn [nth_error]. now rewrite str_eqb_refl.
Qed.

Lemma status_eqb_eq (a b : Status) : status_eqb a b = true <-> a = b.
Proof. destruct a, b; cbn; split; congruence. Qed.

(** How each event changes the sequence of ids: jobs are appended at the
    end or filtered out, and the jobs that stay keep their id and their
    relative order. *)
Lemma step_ids (st : AppState) (e : Event) :
  ids (queue (step st e))
  = match e with
    | FilesSelect files => ids (queue st) ++ map fst files
    | Remove target => filter (fun i => negb (str_eqb i target)) (ids (queue st))
    | Clear => []
    | _ => ids (queue st)
    end.
Proof.
  destruct e as [files| |call outcome|target|target|]; cbn [step].
  - unfold handleFilesSelect, ids. cbn [queue].
    rewrite map_app, map_map. reflexivity.
  - unfold processNextItem_start.
    destruct (isProcessing st); [reflexivity|].
    destruct (next_idle (queue st)); [|reflexivity].
    cbn [queue]. now apply update_id_ids.
  - destruct (nth_error (inflight st) call); [|reflexivity].
    cbn [queue processNextItem_settle].
    destruct outcome; now apply update_id_ids.
  - cbn [handleRetry queue]. now apply update_id_ids.
  - cbn [removeItem queue]. unfold ids.
    induction (queue st) as [|x q IH]; [reflexivity|].
    cbn [filter map]. destruct (str_eqb (id x) target); cbn [negb map];
      now rewrite IH.
  - reflexivity.
Qed.

Lemma removeItem_absent (target : jsstring) (st : AppState) :
  absent target (queue (removeItem target st)).
Proof.
  unfold absent. cbn [removeItem queue]. apply Forall_forall.
  intros x Hx. apply filter_In in Hx. destruct Hx as [_ Hx].
  apply negb_true_iff in Hx. now apply str_eqb_neq.
Qed.

Lemma absent_ids (target : jsstring) (q : list QueueItem) :
  absent target q <-> ~ In target (ids q).
Proof.
  unfold absent, ids. rewrite Forall_forall, in_map_iff. split.
  - intros H (x & E & Hx). now apply (H x Hx).
  - intros H x Hx E. apply H. now exists x.
Qed.

Lemma step_absent (target : jsstring) (st : AppState) (e : Event) :
  avoids target e = true -> absent target (queue st) ->
  absent target (queue (step st e)).
Proof.
  rewrite !absent_ids, step_ids. intros Ha Hq.
  destruct e as [files| |call outcome|t|t|]; auto.
  - intros Hin. apply in_app_or in Hin. destruct Hin as [Hin|Hin]; [auto|].
    cbn [avoids] in Ha. rewrite forallb_forall in Ha.
    apply in_map_iff in Hin. destruct Hin as (df & E & Hdf).
    specialize (Ha df Hdf). apply negb_true_iff, str_eqb_neq in Ha. congruence.
  - intros Hin. apply filter_In in Hin. tauto.
Qed.

Lemma run_absent (target : jsstring) (events : list Event) :
  forall st, forallb (avoids target) events = true ->
             absent target (queue st) ->
             absent target (queue (run st events)).
Proof.
  induction events as [|e rest IH]; intros st Ha Hq; [exact Hq|].
  cbn [forallb] in Ha. apply andb_true_iff in Ha. destruct Ha as [He Hr].
  cbn [run fold_left]. apply IH; [exact Hr|]. now apply step_absent.
Qed.

End QueueFacts.

(* ================================================================= *)
(** ** The queue: the claims *)

Section Queue.

(** C1, evaluated on a run that the page offers.  The queue is cleared while
    the call for [a] is awaited, which also resets [isProcessing]; [b] and
    [c] are selected and [b] is started; when the call for [a] settles, its
    [finally] resets [isProcessing] although the call for [b] is still
    awaited, and the effect starts [c]: two jobs are [Processing]. *)
Theorem clear_in_flight_two_processing :
  ui_run initial clear_in_flight = true
  /\ map status (queue (run initial clear_in_flight)) = [Processing; Processing]
  /\ count_processing (queue (run initial clear_in_flight)) = 2.
Proof. repeat split. Qed.

(** The effect does nothing while a job is in flight or when no job is idle. *)
Lemma processNextItem_start_waits (st : AppState) :
  isProcessing st = true \/ next_idle (queue st) = None ->
  processNextItem_start st = st.
Proof.
  unfold processNextItem_start. intros [-> | H]; [reflexivity|].
  rewrite H. now destruct (isProcessing st).
Qed.

(** C2.  When no job is in flight and some job is idle, the effect hands
    to the job runner the first idle job of the queue (every job before it
    is not idle) and marks it [Processing]; jobs with another id are left as
    they are.  The statement holds in every state, hence at every dispatch
    of every run; by [step_ids] the order of the queue is the order of
    insertion. *)
Theorem processNextItem_starts_first_idle (st : AppState)
    (nextItem : QueueItem) :
  isProcessing st = false ->
  next_idle (queue st) = Some nextItem ->
  exists before after,
    queue st = before ++ nextItem :: after
    /\ status nextItem = Idle
    /\ Forall (fun q => status q <> Idle) before
    /\ inflight (processNextItem_start st) = inflight st ++ [nextItem]
    /\ isProcessing (processNextItem_start st) = true
    /\ nth_error (queue (processNextItem_start st)) (List.length before)
       = Some (mark_processing nextItem)
    /\ Forall2 (fun old new => id old <> id nextItem -> new = old)
               (queue st) (queue (processNextItem_start st)).
Proof.
  intros Hflag Hnext. unfold processNextItem_start. rewrite Hflag, Hnext.
  destruct (find_first _ _ _ Hnext) as (before & after & Hq & Hidle & Hbefore).
  exists before, after. cbn [queue inflight isProcessing].
  repeat split.
  - exact Hq.
  - now apply status_eqb_eq.
  - eapply Forall_impl; [|exact Hbefore]. cbn. intros q Hq' E.
    rewrite E in Hq'. discriminate.
  - rewrite Hq. apply update_id_at.
  - eapply Forall2_impl; [|apply update_id_pointwise]. cbn. tauto.
Qed.

Lemma processNextItem_starts_first_idle_witness :
  inflight (processNextItem_start (run initial two_selected)) = [job_a]
  /\ map status (queue (processNextItem_start (run initial two_selected)))
     = [Processing; Idle].
Proof.
  destruct (processNextItem_starts_first_idle
              (run initial two_selected) job_a eq_refl eq_refl)
    as (before & after & _ & _ & _ & H & _).
  split; [exact H | reflexivity].
Defined.

(** C3, as the claim states it, fails: [handleRetry] has no test of the
    status, and a job that is [Processing] is reset to [Idle]. *)
Lemma handleRetry_resets_processing :
  let st := mkState [mark_processing job_a] true None [job_a] in
  map status (queue st) = [Processing]
  /\ map status (queue (handleRetry (lit "a") st)) = [Idle]
  /\ queue (handleRetry (lit "a") st) <> queue st.
Proof. repeat split. discriminate. Qed.

(** C3, amended.  [handleRetry] resets every job with the given id to
    [Idle] with no subtitles and no error, whatever its status; it leaves
    the jobs with another id, the flag and the awaited calls unchanged; the
    queue is unchanged when the jobs with that id are idle already and carry
    no subtitles and no error. *)
Theorem handleRetry_resets_every_status (target : jsstring) (st : AppState) :
  Forall2 (fun old new =>
             (id old = target ->
              new = mkItem (id old) (file old) Idle None None)
             /\ (id old <> target -> new = old))
          (queue st) (queue (handleRetry target st))
  /\ isProcessing (handleRetry target st) = isProcessing st
  /\ inflight (handleRetry target st) = inflight st
  /\ (Forall (fun q => id q = target ->
                       status q = Idle /\ subtitles q = None /\ error q = None)
             (queue st) ->
      queue (handleRetry target st) = queue st).
Proof.
  repeat split.
  - apply update_id_pointwise.
  - cbn [handleRetry queue]. unfold update_id.
    induction 1 as [|q rest Hq _ IH]; [reflexivity|].
    cbn [map]. rewrite IH. f_equal.
    destruct (str_eqb (id q) target) eqn:E; [|reflexivity].
    apply str_eqb_eq in E. destruct (Hq E) as (H1 & H2 & H3).
    destruct q as [i f s sub err]. cbn in *. now subst.
Qed.

Lemma handleRetry_resets_every_status_witness :
  queue (handleRetry (lit "a") (run initial two_selected))
  = queue (run initial two_selected).
Proof.
  destruct (handleRetry_resets_every_status (lit "a") (run initial two_selected))
    as (_ & _ & _ & H).
  apply H. repeat constructor.
Defined.

(** C4, as the claim states it, fails: ids are random draws, and a job
    selected after the removal can draw the id of the removed job.  The job
    [a] is in flight and is removed; the queue is cleared, a new file draws
    the id [a] and is started; when the call of the removed job is
    rejected, its update finds the new job and marks it [Error] while the
    call of the new job is still awaited. *)
Lemma orphaned_update_hits_redrawn_id :
  nth_error (inflight (run initial (two_selected ++ [Effect]))) 0 = Some job_a
  /\ ui_run (removeItem (lit "a") (run initial (two_selected ++ [Effect])))
            redraw_after_removal = true
  /\ map status
         (queue (run (removeItem (lit "a")
                        (run initial (two_selected ++ [Effect])))
                     redraw_after_removal))
     = [Processing]
  /\ map status
         (queue (step (run (removeItem (lit "a")
                              (run initial (two_selected ++ [Effect])))
                           redraw_after_removal)
                      (Settle 0 (Rejected (Some (lit "boom"))))))
     = [Error]
  /\ queue (step (run (removeItem (lit "a")
                         (run initial (two_selected ++ [Effect])))
                      redraw_after_removal)
                 (Settle 0 (Rejected (Some (lit "boom")))))
     <> queue (run (removeItem (lit "a")
                      (run initial (two_selected ++ [Effect])))
                   redraw_after_removal).
Proof. repeat split. discriminate. Qed.

(** C4, amended.  After the job of an awaited call is removed, and whatever
    happens next as long as no new job draws the same id, the queue has no
    job with that id, and the update that the call makes when it settles,
    fulfilled or rejected, leaves the queue as it is.  In any state the
    update changes no job with another id. *)
Theorem orphaned_update_is_discarded (st : AppState) (nextItem : QueueItem)
    (events : list Event) (outcome : Settled jsstring) :
  forallb (avoids (id nextItem)) events = true ->
  absent (id nextItem) (queue (run (removeItem (id nextItem) st) events))
  /\ queue (processNextItem_settle nextItem outcome
              (run (removeItem (id nextItem) st) events))
     = queue (run (removeItem (id nextItem) st) events)
  /\ (forall call,
        nth_error (inflight (run (removeItem (id nextItem) st) events)) call
        = Some nextItem ->
        queue (step (run (removeItem (id nextItem) st) events)
                    (Settle call outcome))
        = queue (run (removeItem (id nextItem) st) events))
  /\ (forall st0,
        Forall2 (fun old new => id old <> id nextItem -> new = old)
                (queue st0) (queue (processNextItem_settle nextItem outcome st0))).
Proof.
  intros Hav.
  pose proof (run_absent (id nextItem) events _ Hav
                (removeItem_absent (id nextItem) st)) as Habs.
  assert (Hsettle : queue (processNextItem_settle nextItem outcome
                             (run (removeItem (id nextItem) st) events))
                    = queue (run (removeItem (id nextItem) st) events)).
  { cbn [processNextItem_settle queue]. destruct outcome;
      now apply update_id_absent. }
  repeat split.
  - exact Habs.
  - exact Hsettle.
  - intros call Hcall. cbn [step]. rewrite Hcall. cbn [queue]. exact Hsettle.
  - intros st0. cbn [processNextItem_settle queue].
    destruct outcome;
      (eapply Forall2_impl; [|apply update_id_pointwise]); cbn; tauto.
Qed.

Lemma orphaned_update_is_discarded_witness :
  let st := run initial (two_selected ++ [Effect]) in
  nth_error (inflight st) 0 = Some job_a
  /\ queue (step (run (removeItem (lit "a") st) [Effect])
                 (Settle 0 (Fulfilled WEBVTT)))
     = queue (run (removeItem (lit "a") st) [Effect]).
Proof.
  split; [reflexivity|].
  destruct (orphaned_update_is_discarded
              (run initial (two_selected ++ [Effect])) job_a [Effect]
              (Fulfilled WEBVTT) eq_refl)
    as (_ & _ & H & _).
  apply (H 0). reflexivity.
Defined.

End Queue.

(* ================================================================= *)
(** ** The job runner and the ids: the claims *)

Section Runner.

(** X9.  A response without text, or with the empty text, is rejected, and
    the job is marked [Error]. *)
Lemma runJob_no_text (API_KEY : jsstring)
    (ai : option jsstring -> jsstring -> ModelReply) (url : jsstring)
    (nextItem : QueueItem) :
  ai (nth_error (split_on 44%N url) 1) (type (file nextItem)) = ReplyText None
  \/ ai (nth_error (split_on 44%N url) 1) (type (file nextItem))
     = ReplyText (Some []) ->
  exists message,
    runJob API_KEY ai (ReadDataUrl url) nextItem = Rejected (Some message)
    /\ forall st,
         Forall2 (fun old new => id old = id nextItem -> status new = Error)
                 (queue st)
                 (queue (processNextItem_settle nextItem
                           (Rejected (Some message)) st)).
Proof.
  intros H.
  assert (E : exists message,
             runJob API_KEY ai (ReadDataUrl url) nextItem
             = Rejected (Some message)).
  { unfold runJob, generateSubtitles. cbn [fileToBase64].
    destruct (is_empty API_KEY); [now eexists|].
    destruct H as [-> | ->]; now eexists. }
  destruct E as [message E]. exists message. split; [exact E|].
  intros st. cbn [processNextItem_settle queue].
  eapply Forall2_impl; [|apply update_id_pointwise].
  cbn. intros old new [H1 _] Hid. now rewrite (H1 Hid).
Qed.

(** C7, evaluated on a response the model can give.  The text of the
    response is a pair of code fences: it is not empty, so the test
    [!text] lets it pass; the clean-up leaves the empty string, which
    [generateSubtitles] returns; the job is marked [Completed] with the
    empty string as its subtitles. *)
Theorem fence_only_reply_completes_empty :
  let st := run initial [FilesSelect [(lit "a", file_a)]; Effect] in
  nth_error (inflight st) 0 = Some job_a
  /\ runJob some_key fence_only (ReadDataUrl data_url) job_a = Fulfilled []
  /\ queue (step st (Settle 0 (runJob some_key fence_only
                                 (ReadDataUrl data_url) job_a)))
     = [mkItem (lit "a") file_a Completed (Some []) None].
Proof. repeat split. Qed.

Lemma includes_longer (p q s : jsstring) :
  includes p s = false -> includes (p ++ q) s = false.
Proof.
  intros H. destruct (includes (p ++ q) s) eqn:E; [|reflexivity].
  apply includes_iff in E. destruct E as (a & b & ->).
  assert (Hp : includes p (a ++ (p ++ q) ++ b) = true).
  { apply includes_iff. exists a, (q ++ b). now rewrite <- app_assoc. }
  congruence.
Qed.

(** C8.  Whatever text [generateSubtitles] returns is the clean-up of the
    model's text: it contains no code fence, tagged or not, and neither
    starts nor ends with white space; this is the text that the job gets as
    its subtitles when it is marked [Completed].  A payload without
    backticks that is wrapped in a tagged fence and a closing fence comes
    out as the trimmed payload. *)
Theorem generateSubtitles_cleans_text (API_KEY : jsstring)
    (ai : option jsstring -> jsstring -> ModelReply)
    (base64Audio : option jsstring) (mimeType result : jsstring) :
  generateSubtitles API_KEY ai base64Audio mimeType = Fulfilled result ->
  (exists text, ai base64Audio mimeType = ReplyText (Some text)
                /\ result = cleanText text)
  /\ includes FENCE result = false
  /\ includes FENCE_VTT result = false
  /\ trimmed result
  /\ (forall nextItem st,
        Forall2 (fun old new =>
                   id old = id nextItem ->
                   status new = Completed /\ subtitles new = Some result)
                (queue st)
                (queue (processNextItem_settle nextItem (Fulfilled result) st)))
  /\ (forall payload v t1 t2,
        ~ In BACKTICK payload ->
        is_v v = true -> is_t t1 = true -> is_t t2 = true ->
        cleanText (FENCE ++ [v; t1; t2] ++ payload ++ FENCE) = trim payload).
Proof.
  intros H.
  assert (E : exists text, ai base64Audio mimeType = ReplyText (Some text)
                           /\ result = cleanText text).
  { unfold generateSubtitles in H.
    destruct (is_empty API_KEY); [discriminate|].
    destruct (ai base64Audio mimeType) as [[text|]|m]; try discriminate.
    destruct (is_empty text); [discriminate|].
    inversion H. now exists text. }
  split; [exact E|]. destruct E as (text & _ & ->).
  pose proof (cleanText_no_fence text) as Hf.
  repeat split.
  - exact Hf.
  - change FENCE_VTT with (FENCE ++ lit "vtt"). now apply includes_longer.
  - apply trim_trimmed.
  - apply trim_trimmed.
  - intros nextItem st. cbn [processNextItem_settle queue].
    eapply Forall2_impl; [|apply update_id_pointwise].
    cbn. intros old new [H1 _] Hid. now rewrite (H1 Hid).
  - intros payload v t1 t2 Hp Hv Ht1 Ht2. unfold cleanText.
    assert (E1 : remove_fence_vtt (FENCE ++ [v; t1; t2] ++ payload ++ FENCE)
                 = payload ++ FENCE).
    { change (FENCE ++ [v; t1; t2] ++ payload ++ FENCE)
        with (BACKTICK :: BACKTICK :: BACKTICK :: v :: t1 :: t2
                :: (payload ++ FENCE)).
      cbn [remove_fence_vtt fence_vtt_here]. rewrite Hv, Ht1, Ht2.
      cbn [is_backtick andb]. rewrite remove_fence_vtt_plain by assumption.
      reflexivity. }
    rewrite E1, remove_fence_plain by assumption.
    change (remove_fence FENCE) with (@nil code_unit). now rewrite app_nil_r.
Qed.

Lemma generateSubtitles_cleans_text_witness :
  generateSubtitles some_key fenced_reply None (lit "audio/mpeg")
  = Fulfilled WEBVTT
  /\ includes FENCE WEBVTT = false
  /\ trimmed WEBVTT.
Proof.
  split; [reflexivity|].
  destruct (generateSubtitles_cleans_text some_key fenced_reply
              None (lit "audio/mpeg") WEBVTT eq_refl)
    as (_ & H1 & _ & H2 & _).
  split; [exact H1 | exact H2].
Defined.

Lemma existsb_str_eqb (x : jsstring) (l : list jsstring) :
  existsb (str_eqb x) l = true <-> In x l.
Proof.
  rewrite existsb_exists. split.
  - intros (y & Hy & E). apply str_eqb_eq in E. now subst.
  - intros H. exists x. split; [exact H | apply str_eqb_refl].
Qed.

Lemma distinct_NoDup (l : list jsstring) : distinct l = true -> NoDup l.
Proof.
  induction l as [|x l IH]; intros H; [constructor|].
  cbn [distinct] in H. apply andb_true_iff in H. destruct H as [H1 H2].
  constructor; [|now apply IH].
  intros Hin. apply existsb_str_eqb in Hin.
  rewrite Hin in H1. discriminate.
Qed.

Lemma step_NoDup (st : AppState) (e : Event) :
  fresh_draws st [e] = true -> NoDup (ids (queue st)) ->
  NoDup (ids (queue (step st e))).
Proof.
  intros Hf Hq. rewrite step_ids.
  destruct e as [files| |call outcome|t|t|]; try exact Hq.
  - cbn [fresh_draws] in Hf. rewrite andb_true_r in Hf.
    unfold fresh_files in Hf. apply andb_true_iff in Hf. destruct Hf as [H1 H2].
    apply NoDup_app; [exact Hq | now apply distinct_NoDup|].
    intros a Ha Hin. rewrite forallb_forall in H2.
    specialize (H2 a Hin). apply negb_true_iff in H2.
    apply existsb_str_eqb in Ha. congruence.
  - now apply NoDup_filter.
  - constructor.
Qed.

Lemma run_NoDup (events : list Event) :
  forall st, fresh_draws st events = true -> NoDup (ids (queue st)) ->
             NoDup (ids (queue (run st events))).
Proof.
  induction events as [|e rest IH]; intros st Hf Hq; [exact Hq|].
  cbn [fresh_draws] in Hf. apply andb_true_iff in Hf. destruct Hf as [He Hr].
  cbn [run fold_left]. apply IH; [exact Hr|].
  apply step_NoDup; [|exact Hq]. cbn [fresh_draws]. now rewrite He.
Qed.

(** C9, as the claim states it, fails: the id is a random draw, nothing
    makes two draws differ, and two files of one selection that draw the
    same id give a queue with that id twice. *)
Lemma same_draw_duplicates :
  ui_run initial same_draw = true
  /\ reachable (run initial same_draw)
  /\ ids (queue (run initial same_draw)) = [lit "x"; lit "x"]
  /\ ~ NoDup (ids (queue (run initial same_draw))).
Proof.
  split; [reflexivity|]. split; [now exists same_draw|].
  split; [reflexivity|].
  intros H. inversion H as [|x l Hin _]; subst. apply Hin. now left.
Qed.

(** C9, amended.  In a run whose selections of files draw ids that differ
    from each other and from the ids in the queue, the ids of the queue are
    pairwise distinct in every state.  In any run a job keeps the id it got
    when it was enqueued: an event appends the new jobs, filters jobs out,
    or leaves the sequence of ids as it is. *)
Theorem fresh_draws_distinct_ids (events : list Event) :
  fresh_draws initial events = true ->
  NoDup (ids (queue (run initial events)))
  /\ (forall st e,
        ids (queue (step st e))
        = match e with
          | FilesSelect files => ids (queue st) ++ map fst files
          | Remove target =>
              filter (fun i => negb (str_eqb i target)) (ids (queue st))
          | Clear => []
          | _ => ids (queue st)
          end).
Proof.
  intros H. split; [|exact step_ids].
  apply run_NoDup; [exact H | constructor].
Qed.

Lemma fresh_draws_distinct_ids_witness :
  fresh_draws initial clear_in_flight = true
  /\ NoDup (ids (queue (run initial clear_in_flight))).
Proof.
  split; [reflexivity|].
  apply (fresh_draws_distinct_ids clear_in_flight). reflexivity.
Defined.

End Runner.

(* ================================================================= *)
(** ** Single flight in the runs that never clear the queue *)

Section SingleFlight.

Lemma update_id_Forall (P : QueueItem -> Prop) (target : jsstring)
    (f : QueueItem -> QueueItem) (q : list QueueItem) :
  (forall x, In x q -> id x = target -> P (f x)) ->
  (forall x, In x q -> id x <> target -> P x) ->
  Forall P (update_id target f q).
Proof.
  intros Hf Hk. apply Forall_forall. intros y Hy.
  unfold update_id in Hy. apply in_map_iff in Hy.
  destruct Hy as (x & <- & Hx).
  destruct (str_eqb (id x) target) eqn:E.
  - apply str_eqb_eq in E. now apply Hf.
  - apply str_eqb_neq in E. now apply Hk.
Qed.

Lemma single_flight_step (st : AppState) (e : Event) :
  never_clears [e] = true -> fresh_draws st [e] = true ->
  single_flight st -> single_flight (step st e).
Proof.
  intros Hc Hf [Hnd Hst].
  split; [now apply step_NoDup|].
  destruct e as [files| |call outcome|t|t|]; cbn [step].
  - (* FilesSelect *)
    cbn [handleFilesSelect isProcessing inflight queue].
    assert (Hnew : Forall (fun q => status q <> Processing)
                     (map (fun df => mkItem (fst df) (snd df) Idle None None) files)).
    { apply Forall_forall. intros q Hq. apply in_map_iff in Hq.
      destruct Hq as (df & <- & _). discriminate. }
    destruct (isProcessing st).
    + destruct Hst as (j & Hj & Hall). exists j. split; [exact Hj|].
      apply Forall_app. split; [exact Hall|].
      eapply Forall_impl; [|exact Hnew]. cbn. intros q H1 H2. contradiction.
    + destruct Hst as [Hi Hall]. split; [exact Hi|].
      apply Forall_app. now split.
  - (* Effect *)
    unfold processNextItem_start.
    destruct (isProcessing st) eqn:Ep; [now rewrite Ep|].
    destruct Hst as [Hi Hall].
    destruct (next_idle (queue st)) as [j|]; cbn [isProcessing inflight queue].
    + exists j. rewrite Hi. split; [reflexivity|].
      rewrite Forall_forall in Hall.
      apply update_id_Forall.
      * intros x _ Hx _. exact Hx.
      * intros x Hx _ Hp. now apply Hall in Hp.
    + rewrite Ep. now split.
  - (* Settle *)
    destruct (isProcessing st) eqn:Ep.
    + destruct Hst as (j & Hj & Hall). rewrite Hj.
      destruct call as [|call]; cbn [nth_error].
      * cbn [processNextItem_settle isProcessing inflight queue].
        rewrite Hj. split; [reflexivity|].
        rewrite Forall_forall in Hall.
        destruct outcome; apply update_id_Forall;
          try (intros x _ _; discriminate);
          intros x Hx Hid Hp; apply Hid; now apply Hall.
      * destruct call; cbn [nth_error]; rewrite Ep; exists j; now split.
    + destruct Hst as [Hi Hall]. rewrite Hi.
      destruct call; cbn [nth_error]; rewrite Ep; now split.
  - (* Retry *)
    cbn [handleRetry isProcessing inflight queue].
    destruct (isProcessing st).
    + destruct Hst as (j & Hj & Hall). exists j. split; [exact Hj|].
      rewrite Forall_forall in Hall. apply update_id_Forall.
      * intros x _ _. discriminate.
      * intros x Hx _. now apply Hall.
    + destruct Hst as [Hi Hall]. split; [exact Hi|].
      rewrite Forall_forall in Hall. apply update_id_Forall.
      * intros x _ _. discriminate.
      * intros x Hx _. now apply Hall.
  - (* Remove *)
    cbn [removeItem isProcessing inflight queue].
    destruct (isProcessing st).
    + destruct Hst as (j & Hj & Hall). exists j. split; [exact Hj|].
      rewrite Forall_forall in *. intros x Hx. apply filter_In in Hx.
      now apply Hall.
    + destruct Hst as [Hi Hall]. split; [exact Hi|].
      rewrite Forall_forall in *. intros x Hx. apply filter_In in Hx.
      now apply Hall.
  - discriminate Hc.
Qed.

Lemma single_flight_run (events : list Event) :
  forall st, never_clears events = true -> fresh_draws st events = true ->
             single_flight st -> single_flight (run st events).
Proof.
  induction events as [|e rest IH]; intros st Hc Hf Hs; [exact Hs|].
  cbn [never_clears forallb] in Hc. apply andb_true_iff in Hc.
  destruct Hc as [Hc1 Hc2].
  cbn [fresh_draws] in Hf. apply andb_true_iff in Hf. destruct Hf as [Hf1 Hf2].
  cbn [run fold_left]. apply IH; [exact Hc2 | exact Hf2 |].
  apply single_flight_step; [| |exact Hs].
  - cbn [never_clears forallb]. now rewrite Hc1.
  - cbn [fresh_draws]. now rewrite Hf1.
Qed.

Lemma one_per_id (p : QueueItem -> bool) (target : jsstring)
    (q : list QueueItem) :
  NoDup (ids q) -> Forall (fun x => p x = true -> id x = target) q ->
  List.length (filter p q) <= 1.
Proof.
  induction q as [|x q IH]; intros Hnd Hall; [cbn; lia|].
  inversion Hnd as [|? ? Hx Hnd']; subst.
  inversion Hall as [|? ? Hpx Hall']; subst.
  cbn [filter]. destruct (p x) eqn:Ex; [|now apply IH].
  assert (E : filter p q = []).
  { destruct (filter p q) as [|y r] eqn:Ef; [reflexivity|].
    exfalso. assert (Hy : In y (filter p q)) by (rewrite Ef; now left).
    apply filter_In in Hy. destruct Hy as [Hy1 Hy2].
    rewrite Forall_forall in Hall'. apply Hx.
    unfold ids. apply in_map_iff. exists y. split; [|exact Hy1].
    rewrite (Hpx eq_refl). now apply Hall'. }
  rewrite E. cbn. lia.
Qed.

(** X8.  As long as the queue is never cleared and the drawn ids are fresh,
    at most one job is [Processing]: the defect shown by
    [clear_in_flight] needs a clear while a call is awaited. *)
Lemma single_flight_without_clear (events : list Event) :
  never_clears events = true -> fresh_draws initial events = true ->
  count_processing (queue (run initial events)) <= 1.
Proof.
  intros Hc Hf.
  assert (Hi : single_flight initial).
  { split; [constructor|]. cbn. split; [reflexivity | constructor]. }
  destruct (single_flight_run events initial Hc Hf Hi) as [Hnd Hst].
  unfold count_processing.
  destruct (isProcessing (run initial events)).
  - destruct Hst as (j & _ & Hall).
    apply (one_per_id _ (id j)); [exact Hnd|].
    eapply Forall_impl; [|exact Hall]. cbn. intros q H1 H2.
    apply H1. now apply status_eqb_eq.
  - destruct Hst as [_ Hall].
    apply (one_per_id _ []); [exact Hnd|].
    eapply Forall_impl; [|exact Hall]. cbn. intros q H1 H2.
    exfalso. apply H1. now apply status_eqb_eq.
Qed.

End SingleFlight.

(* ================================================================= *)
(** ** A second pass that finds a header changes the text *)

Section SecondPass.

Lemma join_cons_length (sep b : jsstring) (bs : list jsstring) :
  List.length b <= List.length (join sep (b :: bs))
  /\ List.length (join sep bs) <= List.length (join sep (b :: bs)).
Proof.
  destruct bs as [|b2 bs'].
  - cbn. lia.
  - change (join sep (b :: b2 :: bs')) with (b ++ sep ++ join sep (b2 :: bs')).
    rewrite !length_app. lia.
Qed.

Lemma join_filter_length (sep : jsstring) (f : jsstring -> bool)
    (bs : list jsstring) :
  List.length (join sep (filter f bs)) <= List.length (join sep bs).
Proof.
  induction bs as [|b bs IH]; [apply Nat.le_refl|].
  destruct (join_cons_length sep b bs) as [H1 H2].
  cbn [filter]. destruct (f b); [|lia].
  destruct (filter f bs) as [|y r] eqn:Ef; [exact H1|].
  destruct bs as [|b2 bs']; [discriminate|].
  change (join sep (b :: y :: r)) with (b ++ sep ++ join sep (y :: r)).
  change (join sep (b :: b2 :: bs')) with (b ++ sep ++ join sep (b2 :: bs')).
  rewrite !length_app. lia.
Qed.

Lemma join_map_length (sep : jsstring) (h : jsstring -> jsstring)
    (bs : list jsstring) :
  Forall (fun b => List.length (h b) = List.length b) bs ->
  List.length (join sep (map h bs)) = List.length (join sep bs).
Proof.
  induction 1 as [|b bs Hb _ IH]; [reflexivity|].
  destruct bs as [|b2 bs']; [exact Hb|].
  change (join sep (map h (b :: b2 :: bs')))
    with (h b ++ sep ++ join sep (map h (b2 :: bs'))).
  change (join sep (b :: b2 :: bs')) with (b ++ sep ++ join sep (b2 :: bs')).
  rewrite !length_app, IH, Hb. reflexivity.
Qed.

Lemma join_cons_head (sep : jsstring) (c : code_unit) (bs : list jsstring) :
  bs <> [] -> join sep (cons_head c bs) = c :: join sep bs.
Proof.
  destruct bs as [|b [|b2 r]]; intros H; [contradiction | reflexivity | reflexivity].
Qed.

Lemma split_blank_length (s : jsstring) :
  forall in_sep,
    List.length (join BLANK_LINE (split_blank in_sep s))
    + (if in_sep && starts_with [LF] s then 1 else 0)
    <= List.length s.
Proof.
  induction s as [|c s IH]; intros in_sep.
  - destruct in_sep; cbn; lia.
  - rewrite starts_with_LF_cons. cbn [split_blank].
    destruct (in_sep && (c =? LF)%N) eqn:E1.
    { specialize (IH true). cbn [List.length]. 
      destruct (true && starts_with [LF] s); lia. }
    destruct ((c =? LF)%N && starts_with [LF] s) eqn:E2.
    { apply andb_true_iff in E2. destruct E2 as [_ E2].
      specialize (IH true). rewrite E2 in IH. cbn [andb] in IH.
      pose proof (split_blank_not_nil true s) as Hn.
      destruct (split_blank true s) as [|b r] eqn:Es; [contradiction|].
      change (join BLANK_LINE ([] :: b :: r))
        with (LF :: LF :: join BLANK_LINE (b :: r)).
      cbn [List.length] in *. lia. }
    rewrite join_cons_head by apply split_blank_not_nil.
    specialize (IH false). cbn [andb List.length] in *. lia.
Qed.

Lemma lf_mask_length (a b : jsstring) :
  lf_mask a = lf_mask b -> List.length a = List.length b.
Proof.
  intros H. apply (f_equal (@List.length bool)) in H.
  unfold lf_mask in H. now rewrite !length_map in H.
Qed.

(** The result is never longer than the text without its header. *)
Lemma vttToSrt_length (vtt : jsstring) :
  List.length (vttToSrt vtt) <= List.length (strip_header vtt).
Proof.
  destruct vtt as [|c vtt'] eqn:E; [cbn; lia|]. rewrite <- E.
  assert (Hne : vtt <> []) by (rewrite E; discriminate).
  rewrite vttToSrt_blocks by assumption. unfold srt_blocks.
  rewrite join_map_length.
  - pose proof (join_filter_length BLANK_LINE has_time_line
                  (split_blocks (strip_header vtt))) as H1.
    pose proof (split_blank_length (strip_header vtt) false) as H2.
    unfold split_blocks in *. cbn [andb] in H2. lia.
  - apply Forall_forall. intros b Hb. apply filter_In in Hb.
    apply lf_mask_length. now apply convert_block_mask.
Qed.

Lemma newlines_star_length (n : nat) :
  forall s, List.length s <= n ->
            List.length (newlines_star s) <= List.length s.
Proof.
  induction n as [|n IH]; intros s Hlen.
  - destruct s; [apply Nat.le_refl | cbn in Hlen; lia].
  - destruct s as [|c s1]; [apply Nat.le_refl|].
    cbn [newlines_star]. cbn [List.length] in Hlen.
    destruct (c =? LF)%N.
    { specialize (IH s1). cbn [List.length]. lia. }
    destruct (c =? CR)%N; [|apply Nat.le_refl].
    destruct s1 as [|d s2]; [apply Nat.le_refl|].
    destruct (d =? LF)%N; [|apply Nat.le_refl].
    specialize (IH s2). cbn [List.length] in *. lia.
Qed.

Lemma newlines_plus_length (s r : jsstring) :
  newlines_plus s = Some r -> List.length r < List.length s.
Proof.
  destruct s as [|c s1]; [discriminate|]. cbn [newlines_plus].
  destruct (c =? LF)%N.
  { intros H. inversion H.
    pose proof (newlines_star_length (List.length s1) s1 (Nat.le_refl _)).
    cbn [List.length]. lia. }
  destruct (c =? CR)%N; [|discriminate].
  destruct s1 as [|d s2]; [discriminate|].
  destruct (d =? LF)%N; [|discriminate].
  intros H. inversion H.
  pose proof (newlines_star_length (List.length s2) s2 (Nat.le_refl _)).
  cbn [List.length]. lia.
Qed.

Lemma spaces_then_newlines_length (s r : jsstring) :
  spaces_then_newlines s = Some r -> List.length r < List.length s.
Proof.
  induction s as [|c s IH]; cbn [spaces_then_newlines].
  - intros H. now apply newlines_plus_length in H.
  - destruct (is_white_space c).
    + destruct (spaces_then_newlines s) as [r'|].
      * intros H. inversion H; subst. specialize (IH eq_refl).
        cbn [List.length]. lia.
      * apply newlines_plus_length.
    + apply newlines_plus_length.
Qed.

Lemma strip_header_length (vtt : jsstring) :
  strip_header vtt <> vtt ->
  List.length (strip_header vtt) < List.length vtt.
Proof.
  unfold strip_header. destruct (starts_with WEBVTT vtt); [|congruence].
  destruct (spaces_then_newlines (skipn (List.length WEBVTT) vtt)) as [r|] eqn:E;
    [|congruence].
  intros _. apply spaces_then_newlines_length in E.
  rewrite length_skipn in E. lia.
Qed.

(** X16.  The condition of the amended C10 is the exact one: when the
    result starts with a header that the pattern removes, a second pass
    gives a shorter text. *)
Lemma vttToSrt_second_pass_shorter (vtt : jsstring) :
  strip_header (vttToSrt vtt) <> vttToSrt vtt ->
  List.length (vttToSrt (vttToSrt vtt)) < List.length (vttToSrt vtt).
Proof.
  intros H. pose proof (strip_header_length _ H).
  pose proof (vttToSrt_length (vttToSrt vtt)). lia.
Qed.

End SecondPass.

(* ================================================================= *)
(** ** Further properties of the queue handlers *)

Section QueueMore.

Lemma step_Forall (P : QueueItem -> Prop) (st : AppState) (e : Event) :
  (forall x, P x -> P (mark_processing x)) ->
  (forall t x, P x -> P (mark_completed t x)) ->
  (forall m x, P x -> P (mark_error m x)) ->
  (forall x, P x -> P (mark_retry x)) ->
  (forall i f, P (mkItem i f Idle None None)) ->
  Forall P (queue st) -> Forall P (queue (step st e)).
Proof.
  intros Hp Hc He Hr Hn Hq. pose proof Hq as Hq'. rewrite Forall_forall in Hq'.
  destruct e as [files| |call outcome|t|t|]; cbn [step].
  - cbn [handleFilesSelect queue]. apply Forall_app. split; [exact Hq|].
    apply Forall_forall. intros x Hx. apply in_map_iff in Hx.
    destruct Hx as (df & <- & _). apply Hn.
  - unfold processNextItem_start. destruct (isProcessing st); [exact Hq|].
    destruct (next_idle (queue st)); [|exact Hq]. cbn [queue].
    apply update_id_Forall; auto.
  - destruct (nth_error (inflight st) call); [|exact Hq].
    cbn [processNextItem_settle queue].
    destruct outcome; apply update_id_Forall; auto.
  - cbn [handleRetry queue]. apply update_id_Forall; auto.
  - cbn [removeItem queue]. apply Forall_forall. intros x Hx.
    apply filter_In in Hx. now apply Hq'.
  - constructor.
Qed.

(** X1.  In every state that a run reaches, whatever its events: an idle
    job has neither subtitles nor an error, a completed job has subtitles,
    and a failed job has an error message that is not empty. *)
Theorem fields_follow_status (events : list Event) :
  Forall fields_by_status (queue (run initial events)).
Proof.
  assert (H : forall st, Forall fields_by_status (queue st) ->
                         Forall fields_by_status (queue (run st events))).
  { induction events as [|e rest IH]; intros st Hst; [exact Hst|].
    cbn [run fold_left]. apply IH. apply step_Forall; try exact Hst.
    - intros x _. exact I.
    - intros t x _. unfold fields_by_status. cbn. now exists t.
    - intros m x _. unfold fields_by_status. cbn.
      destruct m as [[|c m]|]; eexists; (split; [reflexivity | discriminate]).
    - intros x _. unfold fields_by_status. cbn. now split.
    - intros i f. unfold fields_by_status. cbn. now split. }
  apply H. constructor.
Qed.

(** X2.  The body of the effect is idempotent: after it has run, running it
    again changes nothing, whether it started a job or not. *)
Theorem processNextItem_start_idempotent (st : AppState) :
  processNextItem_start (processNextItem_start st) = processNextItem_start st.
Proof.
  unfold processNextItem_start.
  destruct (isProcessing st) eqn:Ep; [now rewrite Ep|].
  destruct (next_idle (queue st)) eqn:En; cbn [isProcessing];
    [reflexivity | now rewrite Ep, En].
Qed.

Lemma ids_nil (q : list QueueItem) : ids q = [] -> q = [].
Proof. destruct q; [reflexivity | discriminate]. Qed.

(** X3.  After [reset], and until files are selected again, the queue stays
    empty: the calls that were awaited settle without finding their job,
    and the effect, a retry or a removal find nothing to change. *)
Theorem reset_drops_awaited_results (st : AppState) (events : list Event) :
  forallb selects_nothing events = true ->
  queue (run (reset st) events) = []
  /\ inflight (reset st) = inflight st.
Proof.
  intros H. split; [|reflexivity].
  assert (G : forall s, queue s = [] -> queue (run s events) = []).
  { induction events as [|e rest IH]; intros s Hs; [exact Hs|].
    cbn [forallb] in H. apply andb_true_iff in H. destruct H as [He Hr].
    cbn [run fold_left]. apply (IH Hr). apply ids_nil.
    rewrite step_ids, Hs. destruct e; try reflexivity. discriminate He. }
  now apply G.
Qed.

Lemma reset_drops_awaited_results_witness :
  inflight (reset (run initial (two_selected ++ [Effect]))) = [job_a]
  /\ queue (run (reset (run initial (two_selected ++ [Effect]))) orphans_settle)
     = [].
Proof.
  split; [reflexivity|].
  apply (reset_drops_awaited_results
           (run initial (two_selected ++ [Effect])) orphans_settle).
  reflexivity.
Defined.

Lemma filter_not_id_twice (t : jsstring) (q : list QueueItem) :
  filter (fun x => negb (str_eqb (id x) t))
         (filter (fun x => negb (str_eqb (id x) t)) q)
  = filter (fun x => negb (str_eqb (id x) t)) q.
Proof.
  apply forallb_filter_id. apply forallb_forall. intros x Hx.
  apply filter_In in Hx. tauto.
Qed.

Lemma filter_not_id_update (t : jsstring) (f : QueueItem -> QueueItem)
    (q : list QueueItem) :
  (forall x, id (f x) = id x) ->
  filter (fun x => negb (str_eqb (id x) t)) (update_id t f q)
  = filter (fun x => negb (str_eqb (id x) t)) q.
Proof.
  intros Hf. unfold update_id. induction q as [|x q IH]; [reflexivity|].
  cbn [map filter]. destruct (str_eqb (id x) t) eqn:E.
  - rewrite Hf, E. cbn [negb]. exact IH.
  - rewrite E. cbn [negb]. now rewrite IH.
Qed.

(** X4.  Removing a job twice is removing it once, and a retry of a job
    that is removed next leaves no trace. *)
Theorem removeItem_absorbs (target : jsstring) (st : AppState) :
  removeItem target (removeItem target st) = removeItem target st
  /\ removeItem target (handleRetry target st) = removeItem target st.
Proof.
  split.
  - unfold removeItem. cbn [queue isProcessing selectedItemId inflight].
    rewrite filter_not_id_twice. f_equal.
    destruct (option_str_eqb (selectedItemId st) target) eqn:E;
      [reflexivity | now rewrite E].
  - unfold removeItem, handleRetry.
    cbn [queue isProcessing selectedItemId inflight].
    now rewrite filter_not_id_update.
Qed.

(** X5.  A retry is idempotent, and two retries commute. *)
Theorem handleRetry_idempotent_commutes (a b : jsstring) (st : AppState) :
  handleRetry a (handleRetry a st) = handleRetry a st
  /\ handleRetry a (handleRetry b st) = handleRetry b (handleRetry a st).
Proof.
  split; unfold handleRetry; cbn [queue isProcessing selectedItemId inflight];
    f_equal; unfold update_id; rewrite !map_map; apply map_ext; intros x.
  - destruct (str_eqb (id x) a) eqn:Ea; [|now rewrite Ea].
    cbn [mark_retry id]. now rewrite Ea.
  - destruct (str_eqb (id x) a) eqn:Ea, (str_eqb (id x) b) eqn:Eb;
      cbn [mark_retry id file]; rewrite ?Ea, ?Eb; reflexivity.
Qed.

Lemma step_selection (st : AppState) (e : Event) :
  selection_in_queue st -> selection_in_queue (step st e).
Proof.
  unfold selection_in_queue. intros H.
  destruct e as [files| |call outcome|t|t|].
  - rewrite step_ids. cbn [step handleFilesSelect selectedItemId].
    destruct files as [|df files']; cbn [map].
    + rewrite app_nil_r. exact H.
    + destruct (nothing_selected (selectedItemId st)).
      * apply in_or_app. right. now left.
      * destruct (selectedItemId st); [|exact I]. apply in_or_app. now left.
  - rewrite step_ids. cbn [step]. unfold processNextItem_start.
    destruct (isProcessing st); [exact H|].
    destruct (next_idle (queue st)); exact H.
  - rewrite step_ids. cbn [step].
    destruct (nth_error (inflight st) call); exact H.
  - rewrite step_ids. exact H.
  - rewrite step_ids. cbn [step removeItem selectedItemId].
    destruct (selectedItemId st) as [i|]; cbn [option_str_eqb]; [|exact I].
    destruct (str_eqb i t) eqn:E; [exact I|].
    apply filter_In. split; [exact H | now rewrite E].
  - exact I.
Qed.

(** X6.  In every state that a run of the handlers reaches, the selected
    id is the id of a job that is in the queue, or nothing is selected: the
    detail panel never points at a job that was removed or cleared. *)
Theorem selection_stays_in_queue (events : list Event) :
  selection_in_queue (run initial events).
Proof.
  assert (H : forall st, selection_in_queue st ->
                         selection_in_queue (run st events)).
  { induction events as [|e rest IH]; intros st Hst; [exact Hst|].
    cbn [run fold_left]. apply IH. now apply step_selection. }
  apply H. exact I.
Qed.

End QueueMore.

(* ================================================================= *)
(** ** The fields of a job in the runs that never clear the queue *)

Section ExclusiveFields.

Lemma same_id_same_item (q : list QueueItem) (x j : QueueItem) :
  NoDup (ids q) -> In x q -> In j q -> id x = id j -> x = j.
Proof.
  induction q as [|a q IH]; intros Hnd Hx Hj E; [contradiction|].
  inversion Hnd as [|? ? Ha Hnd']; subst.
  assert (Hin : forall y, In y q -> In (id y) (ids q)).
  { intros y Hy. unfold ids. apply in_map_iff. now exists y. }
  destruct Hx as [->|Hx], Hj as [->|Hj].
  - reflexivity.
  - exfalso. apply Ha. rewrite E. now apply Hin.
  - exfalso. apply Ha. rewrite <- E. now apply Hin.
  - now apply IH.
Qed.

Lemma well_kept_step (st : AppState) (e : Event) :
  never_clears [e] = true -> fresh_draws st [e] = true ->
  well_kept st -> well_kept (step st e).
Proof.
  intros Hc Hf (Hnd & Hex & Hfl).
  split; [now apply step_NoDup|].
  pose proof Hex as Hex'. rewrite Forall_forall in Hex'.
  destruct e as [files| |call outcome|t|t|]; cbn [step].
  - (* FilesSelect *)
    cbn [handleFilesSelect isProcessing inflight queue].
    assert (Hnew : forall x,
               In x (map (fun df => mkItem (fst df) (snd df) Idle None None) files) ->
               status x = Idle /\ subtitles x = None /\ error x = None).
    { intros x Hx. apply in_map_iff in Hx. destruct Hx as (df & <- & _).
      now repeat split. }
    split.
    + apply Forall_app. split; [exact Hex|].
      apply Forall_forall. intros x Hx. destruct (Hnew x Hx) as (E1 & E2 & E3).
      unfold exclusive_fields. rewrite E1. now split.
    + destruct (isProcessing st); [|exact Hfl].
      destruct Hfl as (j & Hj & Hall). exists j. split; [exact Hj|].
      apply Forall_app. split; [exact Hall|].
      apply Forall_forall. intros x Hx _. left. now apply Hnew.
  - (* Effect *)
    unfold processNextItem_start.
    destruct (isProcessing st) eqn:Ep; [rewrite Ep; now split|].
    destruct (next_idle (queue st)) as [j|] eqn:En;
      [|rewrite Ep; now split].
    cbn [isProcessing inflight queue].
    apply find_some in En. destruct En as [Hj Hidle].
    apply status_eqb_eq in Hidle.
    split.
    + apply update_id_Forall.
      * intros x Hx E.
        assert (x = j) by now apply (same_id_same_item (queue st)).
        subst x. specialize (Hex' j Hj). unfold exclusive_fields in *.
        rewrite Hidle in Hex'. exact Hex'.
      * intros x Hx _. now apply Hex'.
    + exists j. rewrite Hfl. split; [reflexivity|].
      apply update_id_Forall.
      * intros x _ _ _. now right.
      * intros x _ Hne E. contradiction.
  - (* Settle *)
    destruct (isProcessing st) eqn:Ep.
    + destruct Hfl as (j & Hj & Hall). rewrite Hj.
      destruct call as [|call]; cbn [nth_error].
      * cbn [processNextItem_settle isProcessing inflight queue].
        rewrite Hj. split; [|reflexivity].
        rewrite Forall_forall in Hall.
        destruct outcome as [text|m]; apply update_id_Forall;
          try (intros x Hx _; now apply Hex');
          intros x Hx E; specialize (Hex' x Hx);
          unfold exclusive_fields in *;
          destruct (Hall x Hx E) as [Es|Es]; rewrite Es in Hex';
          destruct Hex' as [E1 E2]; cbn; split; eauto.
      * destruct call; cbn [nth_error]; split; try exact Hex;
          rewrite Ep; exists j; now split.
    + rewrite Hfl. destruct call; cbn [nth_error]; split; try exact Hex;
        now rewrite Ep.
  - (* Retry *)
    cbn [handleRetry isProcessing inflight queue]. split.
    + apply update_id_Forall.
      * intros x _ _. unfold exclusive_fields. cbn. now split.
      * intros x Hx _. now apply Hex'.
    + destruct (isProcessing st); [|exact Hfl].
      destruct Hfl as (j & Hj & Hall). exists j. split; [exact Hj|].
      rewrite Forall_forall in Hall. apply update_id_Forall.
      * intros x _ _ _. now left.
      * intros x Hx _. now apply Hall.
  - (* Remove *)
    cbn [removeItem isProcessing inflight queue]. split.
    + apply Forall_forall. intros x Hx. apply filter_In in Hx. now apply Hex'.
    + destruct (isProcessing st); [|exact Hfl].
      destruct Hfl as (j & Hj & Hall). exists j. split; [exact Hj|].
      rewrite Forall_forall in *. intros x Hx. apply filter_In in Hx.
      now apply Hall.
  - discriminate Hc.
Qed.

Lemma well_kept_run (events : list Event) :
  forall st, never_clears events = true -> fresh_draws st events = true ->
             well_kept st -> well_kept (run st events).
Proof.
  induction events as [|e rest IH]; intros st Hc Hf Hs; [exact Hs|].
  cbn [never_clears forallb] in Hc. apply andb_true_iff in Hc.
  destruct Hc as [Hc1 Hc2].
  cbn [fresh_draws] in Hf. apply andb_true_iff in Hf. destruct Hf as [Hf1 Hf2].
  cbn [run fold_left]. apply IH; [exact Hc2 | exact Hf2 |].
  apply well_kept_step; [| |exact Hs].
  - cbn [never_clears forallb]. now rewrite Hc1.
  - cbn [fresh_draws]. now rewrite Hf1.
Qed.

(** X7.  In a run that never clears the queue and whose drawn ids are
    fresh, every job of every state has its subtitles exactly when it is
    completed and its error exactly when it failed: an idle or processing
    job has neither, a completed job has no error, a failed job has no
    subtitles. *)
Theorem fields_exclusive_without_clear (events : list Event) :
  never_clears events = true -> fresh_draws initial events = true ->
  Forall exclusive_fields (queue (run initial events)).
Proof.
  intros Hc Hf.
  assert (Hi : well_kept initial).
  { split; [constructor|]. split; [constructor | reflexivity]. }
  now destruct (well_kept_run events initial Hc Hf Hi) as (_ & H & _).
Qed.

Lemma fields_exclusive_without_clear_witness :
  map status (queue (run initial retry_in_flight)) = [Idle; Completed]
  /\ Forall exclusive_fields (queue (run initial retry_in_flight)).
Proof.
  split; [reflexivity|].
  apply (fields_exclusive_without_clear retry_in_flight); reflexivity.
Defined.

Lemma single_flight_without_clear_witness :
  count_processing (queue (run initial (two_selected ++ [Effect]))) = 1
  /\ count_processing (queue (run initial retry_in_flight)) <= 1.
Proof.
  split; [reflexivity|].
  apply (single_flight_without_clear retry_in_flight); reflexivity.
Defined.

End ExclusiveFields.

(* ================================================================= *)
(** ** Further properties of the job runner *)

Section RunnerMore.

Lemma runJob_no_text_witness :
  exists message,
    runJob some_key silent_model (ReadDataUrl data_url) job_a
    = Rejected (Some message).
Proof.
  destruct (runJob_no_text some_key silent_model data_url job_a
              (or_intror eq_refl))
    as (message & H & _).
  now exists message.
Defined.

Lemma settle_rejected (nextItem : QueueItem) (message : jsstring)
    (st : AppState) :
  message <> [] ->
  Forall2 (fun old new => id old = id nextItem ->
                          status new = Error /\ error new = Some message)
          (queue st)
          (queue (processNextItem_settle nextItem (Rejected (Some message)) st)).
Proof.
  intros Hm. cbn [processNextItem_settle queue].
  eapply Forall2_impl; [|apply update_id_pointwise].
  cbn. intros old new [H1 _] Hid. rewrite (H1 Hid).
  destruct message; [contradiction | now split].
Qed.

(** X10.  Without an API key the job fails with the message about the key,
    whatever the model would answer: for a file that could be read, the
    runner rejects before the model is asked, and the job is marked
    [Error] with that message. *)
Theorem missing_key_fails_job
    (ai : option jsstring -> jsstring -> ModelReply) (url : jsstring)
    (nextItem : QueueItem) (st : AppState) :
  runJob [] ai (ReadDataUrl url) nextItem = Rejected (Some MSG_NO_KEY)
  /\ Forall2 (fun old new => id old = id nextItem ->
                             status new = Error
                             /\ error new = Some MSG_NO_KEY)
             (queue st)
             (queue (processNextItem_settle nextItem
                       (runJob [] ai (ReadDataUrl url) nextItem) st)).
Proof.
  assert (E : runJob [] ai (ReadDataUrl url) nextItem
              = Rejected (Some MSG_NO_KEY)) by reflexivity.
  split; [exact E|]. rewrite E. now apply settle_rejected.
Qed.

(** X11.  A file that cannot be read fails the job before the key is
    looked at and before the model is asked: a read error, which carries
    no message, gives the message [Processing failed]; a result that is
    not a string gives the message of [fileToBase64]. *)
Theorem unreadable_file_fails_job (API_KEY : jsstring)
    (ai : option jsstring -> jsstring -> ModelReply)
    (nextItem : QueueItem) (st : AppState) :
  Forall2 (fun old new => id old = id nextItem ->
                          status new = Error
                          /\ error new = Some (lit "Processing failed"))
          (queue st)
          (queue (processNextItem_settle nextItem
                    (runJob API_KEY ai ReadFails nextItem) st))
  /\ Forall2 (fun old new => id old = id nextItem ->
                             status new = Error
                             /\ error new
                                = Some (lit "Failed to convert file to base64"))
             (queue st)
             (queue (processNextItem_settle nextItem
                       (runJob API_KEY ai ReadNotString nextItem) st)).
Proof.
  split.
  - cbn [runJob fileToBase64 processNextItem_settle queue].
    eapply Forall2_impl; [|apply update_id_pointwise].
    cbn. intros old new [H1 _] Hid. rewrite (H1 Hid). now split.
  - cbn [runJob fileToBase64]. now apply settle_rejected.
Qed.

(** X12.  [fileToBase64] resolves with what stands between the first comma
    of the data URL and the end, when no further comma follows; without a
    comma it resolves with [undefined], which is handed on as it is. *)
Theorem fileToBase64_payload (prefix payload : jsstring) :
  ~ In COMMA prefix -> ~ In COMMA payload ->
  fileToBase64 (ReadDataUrl (prefix ++ COMMA :: payload))
  = Fulfilled (Some payload)
  /\ fileToBase64 (ReadDataUrl prefix) = Fulfilled None.
Proof.
  intros Hp Hq. cbn [fileToBase64]. split; f_equal.
  - change 44%N with COMMA. rewrite split_on_app by assumption.
    rewrite split_on_single by assumption. reflexivity.
  - change 44%N with COMMA. now rewrite split_on_single.
Qed.

Lemma fileToBase64_payload_witness :
  fileToBase64 (ReadDataUrl data_url) = Fulfilled (Some (lit "QUJD")).
Proof.
  apply (fileToBase64_payload (lit "data:audio/mpeg;base64") (lit "QUJD")).
  - intros H. repeat (destruct H as [H|H]; [discriminate H|]). exact H.
  - intros H. repeat (destruct H as [H|H]; [discriminate H|]). exact H.
Defined.

End RunnerMore.

(* ================================================================= *)
(** ** Further properties of the clean-up and of the converter *)

Section TextMore.

Lemma fence_vtt_is_fence (s : jsstring) :
  fence_vtt_here s = true -> fence_here s = true.
Proof.
  destruct s as [|a [|b [|c [|v [|t1 [|t2 s]]]]]]; try discriminate.
  cbn [fence_vtt_here fence_here]. intros H.
  apply andb_true_iff in H. destruct H as [H _].
  apply andb_true_iff in H. destruct H as [H _].
  apply andb_true_iff in H. destruct H as [H _].
  exact H.
Qed.

Lemma no_fence_cons (c : code_unit) (s : jsstring) :
  includes FENCE (c :: s) = false ->
  fence_here (c :: s) = false /\ includes FENCE s = false.
Proof.
  cbn [includes]. rewrite starts_with_FENCE. intros H.
  now apply orb_false_iff in H.
Qed.

Lemma remove_fence_clean (s : jsstring) :
  includes FENCE s = false -> remove_fence s = s.
Proof.
  induction s as [|c s IH]; intros H; [reflexivity|].
  destruct (no_fence_cons c s H) as [H1 H2].
  cbn [remove_fence]. rewrite H1. f_equal. now apply IH.
Qed.

Lemma remove_fence_vtt_clean (s : jsstring) :
  includes FENCE s = false -> remove_fence_vtt s = s.
Proof.
  induction s as [|c s IH]; intros H; [reflexivity|].
  destruct (no_fence_cons c s H) as [H1 H2].
  cbn [remove_fence_vtt].
  destruct (fence_vtt_here (c :: s)) eqn:E.
  - apply fence_vtt_is_fence in E. congruence.
  - f_equal. now apply IH.
Qed.

Lemma trim_end_fixed (s : jsstring) :
  match rev s with
  | [] => True
  | c :: _ => is_white_space c = false
  end ->
  trim_end s = s.
Proof.
  induction s as [|c s IH]; intros H; [reflexivity|].
  cbn [trim_end]. destruct s as [|d s'].
  - cbn in H. cbn. now rewrite H.
  - assert (Hs : trim_end (d :: s') = d :: s').
    { apply IH. change (rev (c :: d :: s')) with (rev (d :: s') ++ [c]) in H.
      destruct (rev (d :: s')) as [|z q] eqn:Er; [|exact H].
      apply (f_equal (@rev _)) in Er. rewrite rev_involutive in Er.
      discriminate. }
    now rewrite Hs.
Qed.

Lemma trim_fixed (s : jsstring) : trimmed s -> trim s = s.
Proof.
  intros [H1 H2]. unfold trim.
  assert (E : trim_start s = s).
  { destruct s as [|c s']; [reflexivity|]. cbn. now rewrite H1. }
  rewrite E. now apply trim_end_fixed.
Qed.

(** X13.  The clean-up is idempotent: a text that went through it is left
    as it is by a second pass. *)
Theorem cleanText_idempotent (text : jsstring) :
  cleanText (cleanText text) = cleanText text.
Proof.
  pose proof (cleanText_no_fence text) as Hf.
  assert (Ht : trimmed (cleanText text)) by apply trim_trimmed.
  unfold cleanText at 1.
  rewrite remove_fence_vtt_clean, remove_fence_clean by assumption.
  now apply trim_fixed.
Qed.

(** X14.  A text without a backtick only loses the white space around it;
    when it neither starts nor ends with white space it is returned as it
    is. *)
Theorem cleanText_plain (text : jsstring) :
  ~ In BACKTICK text ->
  cleanText text = trim text /\ (trimmed text -> cleanText text = text).
Proof.
  intros H.
  assert (E : cleanText text = trim text).
  { unfold cleanText. rewrite <- (app_nil_r text) at 1.
    rewrite remove_fence_vtt_plain by assumption. cbn [remove_fence_vtt].
    rewrite remove_fence_plain by assumption. cbn [remove_fence].
    now rewrite app_nil_r. }
  split; [exact E|]. intros Ht. rewrite E. now apply trim_fixed.
Qed.

Lemma cleanText_plain_witness :
  cleanText (lit "  WEBVTT ") = WEBVTT.
Proof.
  destruct (cleanText_plain (lit "  WEBVTT ")) as [H _].
  - intros H. repeat (destruct H as [H|H]; [discriminate H|]). exact H.
  - rewrite H. reflexivity.
Defined.

Lemma strip_header_le (vtt : jsstring) :
  List.length (strip_header vtt) <= List.length vtt.
Proof.
  unfold strip_header. destruct (starts_with WEBVTT vtt); [|apply Nat.le_refl].
  destruct (spaces_then_newlines (skipn (List.length WEBVTT) vtt)) as [r|] eqn:E;
    [|apply Nat.le_refl].
  apply spaces_then_newlines_length in E. rewrite length_skipn in E. lia.
Qed.

(** X15.  The converted text is never longer than the text it is made
    from. *)
Theorem vttToSrt_never_longer (vtt : jsstring) :
  List.length (vttToSrt vtt) <= List.length vtt.
Proof.
  pose proof (vttToSrt_length vtt). pose proof (strip_header_le vtt). lia.
Qed.

Lemma vttToSrt_second_pass_shorter_witness :
  List.length (vttToSrt (vttToSrt header_twice))
  < List.length (vttToSrt header_twice).
Proof.
  apply (vttToSrt_second_pass_shorter header_twice).
  intros H. discriminate H.
Defined.

(** X17.  A text that has no blank line after its header, in particular a
    text whose line ends are all CR LF, is converted as one single block:
    the result is that block with its first time-range line rewritten, and
    every later time-range line keeps its dots. *)
Theorem vttToSrt_single_block (vtt : jsstring) :
  no_blank (strip_header vtt) = true ->
  vttToSrt vtt = convert_block (strip_header vtt).
Proof.
  intros H. destruct vtt as [|c vtt'] eqn:E; [reflexivity|]. rewrite <- E in *.
  assert (Hne : vtt <> []) by (rewrite E; discriminate).
  rewrite vttToSrt_blocks by assumption. unfold srt_blocks, split_blocks.
  rewrite split_blank_whole by assumption. cbn [filter].
  destruct (has_time_line (strip_header vtt)) eqn:Et; [reflexivity|].
  now rewrite convert_block_no_time.
Qed.

Lemma vttToSrt_single_block_witness :
  vttToSrt crlf_vtt = convert_block (strip_header crlf_vtt)
  /\ vttToSrt crlf_vtt = crlf_srt.
Proof.
  split; [|reflexivity].
  apply (vttToSrt_single_block crlf_vtt). reflexivity.
Defined.

Lemma update_at_length {A : Type} (g : A -> A) (i : nat) (l : list A) :
  List.length (update_at i g l) = List.length l.
Proof.
  revert i. induction l as [|x l IH]; intros i; [reflexivity|].
  destruct i; cbn [update_at List.length]; [reflexivity | now rewrite IH].
Qed.

Lemma update_at_same {A : Type} (g : A -> A) (i : nat) (l : list A) :
  nth_error (update_at i g l) i = option_map g (nth_error l i).
Proof.
  revert i. induction l as [|x l IH]; intros i; [now destruct i|].
  destruct i; cbn [update_at nth_error]; [reflexivity | apply IH].
Qed.

Lemma update_at_other {A : Type} (g : A -> A) (i j : nat) (l : list A) :
  j <> i -> nth_error (update_at i g l) j = nth_error l j.
Proof.
  revert i j. induction l as [|x l IH]; intros i j H; [reflexivity|].
  destruct i, j; cbn [update_at nth_error]; try reflexivity;
    [contradiction | apply IH; lia].
Qed.

(** X18.  In a block whose first line with [-->] is line [timeIdx], the
    conversion keeps the number of lines, replaces the dots of that line,
    and leaves every other line as it is, the lines of the text and any
    later line with [-->] alike. *)
Theorem convert_block_other_lines (block : jsstring) (timeIdx : nat) :
  findIndex (includes ARROW) (split_on LF block) = Some timeIdx ->
  List.length (split_on LF (convert_block block))
  = List.length (split_on LF block)
  /\ nth_error (split_on LF (convert_block block)) timeIdx
     = option_map fix_timestamps (nth_error (split_on LF block) timeIdx)
  /\ (forall j, j <> timeIdx ->
        nth_error (split_on LF (convert_block block)) j
        = nth_error (split_on LF block) j).
Proof.
  intros H. rewrite (split_on_convert_block block timeIdx H).
  split; [apply update_at_length|].
  split; [apply update_at_same|].
  intros j Hj. now apply update_at_other.
Qed.

Lemma convert_block_other_lines_witness :
  nth_error (split_on LF (convert_block (render_cue cue_bye))) 2
  = Some (lit "bye.").
Proof.
  destruct (convert_block_other_lines (render_cue cue_bye) 0 eq_refl)
    as (_ & _ & H).
  rewrite (H 2) by discriminate. reflexivity.
Defined.

Lemma newlines_star_spaces (n : nat) :
  forall s, List.length s <= n ->
            starts_with [LF] (newlines_star s) = false
            /\ exists w, s = w ++ newlines_star s
                         /\ Forall (fun c => is_white_space c = true) w.
Proof.
  induction n as [|n IH]; intros s Hlen.
  - destruct s; [|cbn in Hlen; lia]. split; [reflexivity|]. now exists [].
  - destruct s as [|c s1]; [split; [reflexivity | now exists []]|].
    cbn [List.length] in Hlen. cbn [newlines_star].
    destruct (N.eqb_spec c LF) as [->|Hc].
    { destruct (IH s1) as (H1 & w & Hw & Hall); [lia|].
      split; [exact H1|]. exists (LF :: w). split.
      - cbn [app]. now f_equal.
      - now constructor. }
    assert (Hkeep : starts_with [LF] (c :: s1) = false
                    /\ exists w, c :: s1 = w ++ c :: s1
                                 /\ Forall (fun c => is_white_space c = true) w).
    { split; [|now exists []]. rewrite starts_with_LF_cons.
      now apply N.eqb_neq. }
    destruct (N.eqb_spec c CR) as [->|Hr]; [|exact Hkeep].
    destruct s1 as [|d s2]; [exact Hkeep|].
    destruct (N.eqb_spec d LF) as [->|Hd]; [|exact Hkeep].
    cbn [List.length] in Hlen.
    destruct (IH s2) as (H1 & w & Hw & Hall); [lia|].
    split; [exact H1|]. exists (CR :: LF :: w). split.
    + cbn [app]. now do 2 f_equal.
    + now repeat constructor.
Qed.

Lemma newlines_plus_spaces (s r : jsstring) :
  newlines_plus s = Some r ->
  starts_with [LF] r = false
  /\ exists w, s = w ++ r /\ Forall (fun c => is_white_space c = true) w.
Proof.
  destruct s as [|c s1]; [discriminate|]. cbn [newlines_plus].
  destruct (N.eqb_spec c LF) as [->|Hc].
  { intros [= <-].
    destruct (newlines_star_spaces (List.length s1) s1 (Nat.le_refl _))
      as (H1 & w & Hw & Hall).
    split; [exact H1|]. exists (LF :: w). split.
    - cbn [app]. now f_equal.
    - now constructor. }
  destruct (N.eqb_spec c CR) as [->|Hr]; [|discriminate].
  destruct s1 as [|d s2]; [discriminate|].
  destruct (N.eqb_spec d LF) as [->|Hd]; [|discriminate].
  intros [= <-].
  destruct (newlines_star_spaces (List.length s2) s2 (Nat.le_refl _))
    as (H1 & w & Hw & Hall).
  split; [exact H1|]. exists (CR :: LF :: w). split.
  - cbn [app]. now do 2 f_equal.
  - now repeat constructor.
Qed.

Lemma spaces_then_newlines_spaces (s r : jsstring) :
  spaces_then_newlines s = Some r ->
  starts_with [LF] r = false
  /\ exists w, s = w ++ r /\ Forall (fun c => is_white_space c = true) w.
Proof.
  revert r. induction s as [|c s IH]; intros r; cbn [spaces_then_newlines].
  - apply newlines_plus_spaces.
  - destruct (is_white_space c) eqn:Ec; [|apply newlines_plus_spaces].
    destruct (spaces_then_newlines s) as [r'|]; [|apply newlines_plus_spaces].
    intros H. inversion H; subst.
    destruct (IH r eq_refl) as (H1 & w & Hw & Hall).
    split; [exact H1|]. exists (c :: w). split.
    + cbn [app]. now f_equal.
    + now constructor.
Qed.

(** X19.  The header pattern removes nothing but the word [WEBVTT] and
    white space: either the text is left as it is, or it is [WEBVTT], then
    white space, then the result, and the result does not start with a
    line feed. *)
Theorem strip_header_removes_header_only (vtt : jsstring) :
  strip_header vtt = vtt
  \/ (starts_with [LF] (strip_header vtt) = false
      /\ exists w, vtt = WEBVTT ++ w ++ strip_header vtt
                   /\ Forall (fun c => is_white_space c = true) w).
Proof.
  unfold strip_header. destruct (starts_with WEBVTT vtt) eqn:Es; [|now left].
  destruct (starts_with_inv _ _ Es) as [t ->].
  rewrite skipn_length_app.
  destruct (spaces_then_newlines t) as [r|] eqn:E; [|now left].
  right. destruct (spaces_then_newlines_spaces t r E) as (H1 & w & Hw & Hall).
  split; [exact H1|]. exists w. split; [now rewrite Hw | exact Hall].
Qed.

End TextMore.

(* ================================================================= *)
(** ** The names of the downloads and the test of the uploader *)

Section Names.

Lemma lastIndexOf_None (d : code_unit) (s : jsstring) :
  lastIndexOf d s = None <-> ~ In d s.
Proof.
  induction s as [|c s IH]; cbn [lastIndexOf].
  - split; [intros _ [] | reflexivity].
  - destruct (lastIndexOf d s) as [i|].
    + split; [discriminate|]. intros H. exfalso.
      assert (Hs : ~ In d s) by (intros Hin; apply H; now right).
      apply IH in Hs. discriminate.
    + destruct (N.eqb_spec c d) as [->|Hne].
      * split; [discriminate|]. intros H. exfalso. apply H. now left.
      * split; [|reflexivity]. intros _ [E|Hin]; [congruence|].
        now apply (proj1 IH eq_refl).
Qed.

Lemma lastIndexOf_Some (d : code_unit) (s : jsstring) (i : nat) :
  lastIndexOf d s = Some i ->
  exists ext, s = firstn i s ++ d :: ext /\ ~ In d ext.
Proof.
  revert i. induction s as [|c s IH]; intros i; [discriminate|].
  cbn [lastIndexOf]. destruct (lastIndexOf d s) as [k|] eqn:E.
  - intros [= <-]. destruct (IH k eq_refl) as (ext & Hs & Hext).
    exists ext. split; [|exact Hext]. cbn [firstn app]. now f_equal.
  - destruct (N.eqb_spec c d) as [->|Hne]; [|discriminate].
    intros [= <-]. exists s. split; [reflexivity|].
    now apply lastIndexOf_None.
Qed.

(** X20.  The name that [handleDownloadAll] gives an entry of the archive
    is the file name up to its last dot: a name with a dot is that base,
    the dot and an extension without a dot; a name without a dot is its own
    base. *)
Theorem baseName_splits (fileName : jsstring) :
  (In DOT fileName ->
   exists ext, fileName = baseName fileName ++ DOT :: ext /\ ~ In DOT ext)
  /\ (~ In DOT fileName -> baseName fileName = fileName).
Proof.
  unfold baseName. split.
  - intros Hin. destruct (lastIndexOf DOT fileName) as [i|] eqn:E.
    + now apply lastIndexOf_Some.
    + apply lastIndexOf_None in E. contradiction.
  - intros Hn. apply lastIndexOf_None in Hn. now rewrite Hn.
Qed.

Lemma zipEntry_has_result (item : QueueItem) :
  has_result item = true ->
  exists s, subtitles item = Some s
            /\ zipEntry item
               = [(baseName (name (file item)) ++ lit ".srt", vttToSrt s)].
Proof.
  unfold has_result, zipEntry. intros H. apply andb_true_iff in H.
  destruct H as [_ H]. destruct (subtitles item) as [s|]; [|discriminate].
  exists s. split; [reflexivity|]. now destruct (is_empty s).
Qed.

Lemma flat_map_zipEntry (items : list QueueItem) :
  Forall (fun item => has_result item = true) items ->
  Forall2 (fun item entry =>
             exists s, subtitles item = Some s
                       /\ entry = (baseName (name (file item)) ++ lit ".srt",
                                   vttToSrt s))
          items (flat_map zipEntry items).
Proof.
  induction 1 as [|item rest Hi _ IH]; [constructor|].
  destruct (zipEntry_has_result item Hi) as (s & Hs & He).
  cbn [flat_map]. rewrite He. cbn [app]. constructor; [|exact IH].
  now exists s.
Qed.

(** X21.  [handleDownloadAll] hands to the archive one entry for each
    completed job with subtitles that are not empty, in queue order: its
    name is the base name of the file followed by [.srt], its content the
    conversion of the subtitles.  Jobs in another status, and completed
    jobs whose subtitles are empty, give no entry; without any entry
    nothing is downloaded. *)
Theorem handleDownloadAll_entries (q : list QueueItem) :
  (handleDownloadAll q = None <-> filter has_result q = [])
  /\ (forall files zipName,
        handleDownloadAll q = Some (files, zipName) ->
        zipName = lit "subtitles_srt.zip"
        /\ Forall2 (fun item entry =>
                      exists s, subtitles item = Some s
                                /\ entry
                                   = (baseName (name (file item)) ++ lit ".srt",
                                      vttToSrt s))
                   (filter has_result q) files).
Proof.
  unfold handleDownloadAll.
  assert (Hall : Forall (fun item => has_result item = true)
                        (filter has_result q)).
  { apply Forall_forall. intros x Hx. apply filter_In in Hx. tauto. }
  destruct (filter has_result q) as [|item rest] eqn:E.
  - split; [tauto|]. discriminate.
  - split; [split; discriminate|].
    intros files zipName [= <- <-]. split; [reflexivity|].
    now apply flat_map_zipEntry.
Qed.

Lemma firstSegment_cons (c : code_unit) (s : jsstring) :
  firstSegment (c :: s)
  = if (c =? DOT)%N then [] else c :: firstSegment s.
Proof.
  unfold firstSegment. cbn [split_on].
  destruct (c =? DOT)%N; [reflexivity|].
  pose proof (split_on_not_nil DOT s).
  now destruct (split_on DOT s).
Qed.

Lemma baseName_cons (c : code_unit) (s : jsstring) :
  baseName (c :: s)
  = if (c =? DOT)%N
    then match lastIndexOf DOT s with
         | Some _ => c :: baseName s
         | None => []
         end
    else c :: baseName s.
Proof.
  unfold baseName. cbn [lastIndexOf].
  destruct (lastIndexOf DOT s) as [i|]; [now destruct (c =? DOT)%N|].
  now destruct (c =? DOT)%N.
Qed.

Lemma dots_zero (s : jsstring) : dots s = 0 <-> ~ In DOT s.
Proof.
  unfold dots. induction s as [|c s IH]; [cbn; tauto|].
  cbn [filter]. destruct (N.eqb_spec c DOT) as [->|Hne].
  - cbn [List.length]. split; [discriminate|]. intros H. exfalso. apply H. now left.
  - rewrite IH. split.
    + intros H [E|Hin]; [congruence | contradiction].
    + intros H Hin. apply H. now right.
Qed.

(** X22.  The viewer names its download after the file name up to the
    first dot, the archive after the file name up to the last dot.  The
    first is a prefix of the second, and the two agree exactly for the file
    names with at most one dot. *)
Theorem firstSegment_vs_baseName (fileName : jsstring) :
  (exists rest, baseName fileName = firstSegment fileName ++ rest)
  /\ (firstSegment fileName = baseName fileName <-> dots fileName <= 1).
Proof.
  induction fileName as [|c s [[rest IH1] IH2]].
  - split; [now exists [] | cbn; split; [lia | reflexivity]].
  - rewrite firstSegment_cons, baseName_cons.
    assert (Hd : dots (c :: s) = if (c =? DOT)%N then S (dots s) else dots s).
    { unfold dots. cbn [filter]. now destruct (c =? DOT)%N. }
    rewrite Hd. destruct (c =? DOT)%N.
    + split; [eexists; reflexivity|].
      destruct (lastIndexOf DOT s) as [i|] eqn:E.
      * split; [discriminate|]. intros H. exfalso.
        assert (H0 : dots s = 0) by lia.
        apply dots_zero, lastIndexOf_None in H0. congruence.
      * split; [|reflexivity]. intros _.
        apply lastIndexOf_None, dots_zero in E. lia.
    + split.
      * exists rest. cbn [app]. now f_equal.
      * rewrite <- IH2. split; [now intros [= ->] | now intros ->].
Qed.

Lemma to_upper_dot (c : code_unit) : (to_upper c =? DOT)%N = (c =? DOT)%N.
Proof.
  unfold to_upper, DOT.
  destruct ((97 <=? c)%N && (c <=? 122)%N) eqn:E; [|reflexivity].
  apply andb_true_iff in E. destruct E as [E1 E2].
  apply N.leb_le in E1. apply N.leb_le in E2.
  destruct (N.eqb_spec (c - 32) 46); destruct (N.eqb_spec c 46); lia.
Qed.

Lemma ci_matches_all_upper (e a b : jsstring) :
  map to_upper a = map to_upper b ->
  ci_matches_all e a = ci_matches_all e b.
Proof.
  revert a b. induction e as [|x e IH]; intros [|y a] [|z b] H;
    try discriminate; try reflexivity.
  cbn [map] in H. injection H as Hyz Hab.
  cbn [ci_matches_all]. unfold ci_eqb. now rewrite Hyz, (IH a b Hab).
Qed.

(** X23.  The test of the extension does not look at the case of the file
    name: two names that agree up to the case of their letters from [a] to
    [z] are both accepted or both refused. *)
Theorem hasValidExtension_ignores_case (n1 n2 : jsstring) :
  map to_upper n1 = map to_upper n2 ->
  hasValidExtension n1 = hasValidExtension n2.
Proof.
  revert n2. induction n1 as [|c a IH]; intros [|d b] H;
    try discriminate; [reflexivity|].
  cbn [map] in H. injection H as Hcd Hab.
  cbn [hasValidExtension extension_here].
  rewrite (IH b Hab). f_equal.
  rewrite <- (to_upper_dot c), <- (to_upper_dot d), Hcd. f_equal.
  induction EXTENSIONS as [|e es IHe]; [reflexivity|].
  cbn [existsb]. now rewrite IHe, (ci_matches_all_upper e a b Hab).
Qed.

Lemma hasValidExtension_ignores_case_witness :
  hasValidExtension (lit "my.song.MP3") = true
  /\ hasValidExtension (lit "MY.SONG.mp3")
     = hasValidExtension (lit "my.song.MP3").
Proof.
  split; [reflexivity|].
  apply (hasValidExtension_ignores_case (lit "MY.SONG.mp3") (lit "my.song.MP3")).
  reflexivity.
Defined.

Lemma extension_units_not_dot :
  forallb (fun e => forallb (fun x => negb (to_upper x =? DOT)%N) e) EXTENSIONS
  = true.
Proof. reflexivity. Qed.

Lemma ci_matches_all_no_dot (e ext : jsstring) :
  forallb (fun x => negb (to_upper x =? DOT)%N) e = true ->
  ci_matches_all e ext = true -> ~ In DOT ext.
Proof.
  revert ext. induction e as [|x e IH]; intros [|y ext] He Hm;
    try discriminate; [intros []|].
  cbn [forallb] in He. apply andb_true_iff in He. destruct He as [Hx He].
  cbn [ci_matches_all] in Hm. apply andb_true_iff in Hm. destruct Hm as [Hy Hm].
  intros [E|Hin]; [|now apply (IH ext He Hm)].
  subst y. unfold ci_eqb in Hy. apply N.eqb_eq in Hy.
  rewrite Hy in Hx. now rewrite to_upper_dot in Hx.
Qed.

Lemma baseName_app (base ext : jsstring) :
  ~ In DOT ext -> baseName (base ++ DOT :: ext) = base.
Proof.
  intros Hext. induction base as [|c base IH].
  - cbn [app]. rewrite baseName_cons, N.eqb_refl.
    apply lastIndexOf_None in Hext. now rewrite Hext.
  - cbn [app]. rewrite baseName_cons, IH.
    destruct (lastIndexOf DOT (base ++ DOT :: ext)) eqn:E;
      [now destruct (c =? DOT)%N|].
    apply lastIndexOf_None in E. exfalso. apply E.
    apply in_or_app. right. now left.
Qed.

(** X24.  A file name that passes the test of the extension ends with a
    dot and one of the twelve extensions, in any case, and the entry that
    [handleDownloadAll] makes for it is named after what stands before that
    dot. *)
Theorem hasValidExtension_base (fileName : jsstring) :
  hasValidExtension fileName = true ->
  exists base ext e,
    fileName = base ++ DOT :: ext
    /\ In e EXTENSIONS
    /\ map to_upper ext = map to_upper e
    /\ baseName fileName = base.
Proof.
  induction fileName as [|c s IH]; [discriminate|].
  cbn [hasValidExtension]. intros H. apply orb_true_iff in H.
  destruct H as [H|H].
  - unfold extension_here in H. apply andb_true_iff in H. destruct H as [Hc He].
    apply N.eqb_eq in Hc. subst c.
    apply existsb_exists in He. destruct He as (e & Hin & Hm).
    exists [], s, e. repeat split; try assumption.
    + clear -Hm. revert s Hm. induction e as [|x e IH]; intros [|y s] Hm;
        try discriminate; [reflexivity|].
      cbn [ci_matches_all] in Hm. apply andb_true_iff in Hm.
      destruct Hm as [Hy Hm]. apply N.eqb_eq in Hy.
      cbn [map]. now rewrite Hy, (IH s Hm).
    + apply (baseName_app [] s).
      pose proof extension_units_not_dot as Hall.
      rewrite forallb_forall in Hall.
      now apply (ci_matches_all_no_dot e s (Hall e Hin)).
  - destruct (IH H) as (base & ext & e & -> & Hin & Hm & Hb).
    exists (c :: base), ext, e. repeat split; try assumption.
    rewrite <- Hb at 2. rewrite Hb.
    assert (Hext : ~ In DOT ext).
    { pose proof (proj1 (baseName_splits (base ++ DOT :: ext))) as Hs.
      destruct Hs as (ext' & Hs & Hn); [apply in_or_app; right; now left|].
      rewrite Hb in Hs. apply app_inv_head in Hs. now injection Hs as ->. }
    apply (baseName_app (c :: base) ext Hext).
Qed.

Lemma hasValidExtension_base_witness :
  exists base ext e,
    lit "my.song.MP3" = base ++ DOT :: ext
    /\ In e EXTENSIONS
    /\ map to_upper ext = map to_upper e
    /\ baseName (lit "my.song.MP3") = base.
Proof.
  apply (hasValidExtension_base (lit "my.song.MP3")). reflexivity.
Defined.

(** X25.  What [processFiles] hands on is never empty, holds no file above
    the limit of 100 MB, and is left as it is by a second validation; a
    drop on a disabled uploader hands on nothing. *)
Theorem processFiles_forwards (fileList validFiles : list UploadFile) :
  processFiles fileList = OnFilesSelect validFiles ->
  validFiles <> []
  /\ Forall (fun f => (size f <= maxSizeBytes)%N) validFiles
  /\ processFiles validFiles = OnFilesSelect validFiles
  /\ handleDrop true fileList = NoAction.
Proof.
  unfold processFiles. intros H.
  assert (Hall : forall f, In f (filter is_valid fileList) -> is_valid f = true).
  { intros f Hf. apply filter_In in Hf. tauto. }
  destruct (filter is_valid fileList) as [|f rest] eqn:E.
  - destruct fileList; discriminate.
  - injection H as <-. repeat split.
    + discriminate.
    + apply Forall_forall. intros x Hx. specialize (Hall x Hx).
      unfold is_valid in Hall. apply andb_true_iff in Hall.
      now apply N.leb_le.
    + assert (Hid : filter is_valid (f :: rest) = f :: rest).
      { apply forallb_filter_id. apply forallb_forall. exact Hall. }
      now rewrite Hid.
Qed.

Lemma processFiles_forwards_witness :
  processFiles [upload_notes; upload_song; upload_film]
  = OnFilesSelect [upload_song]
  /\ processFiles [upload_song] = OnFilesSelect [upload_song].
Proof.
  split; [reflexivity|].
  destruct (processFiles_forwards
              [upload_notes; upload_song; upload_film] [upload_song] eq_refl)
    as (_ & _ & H & _).
  exact H.
Defined.

End Names.

(* ================================================================= *)
(** ** Texts of two cues with line feeds as line ends *)

Section TwoCues.

Lemma findIndex_app_skip {A : Type} (f : A -> bool) (pre : list A) (x : A)
    (post : list A) :
  forallb (fun y => negb (f y)) pre = true -> f x = true ->
  findIndex f (pre ++ x :: post) = Some (List.length pre).
Proof.
  intros Hpre Hx. induction pre as [|y pre IH].
  - cbn [app findIndex List.length]. now rewrite Hx.
  - cbn [forallb] in Hpre. apply andb_true_iff in Hpre.
    destruct Hpre as [Hy Hpre]. apply negb_true_iff in Hy.
    cbn [app findIndex List.length]. now rewrite Hy, (IH Hpre).
Qed.

Lemma update_at_app {A : Type} (g : A -> A) (pre : list A) (x : A)
    (post : list A) :
  update_at (List.length pre) g (pre ++ x :: post) = pre ++ g x :: post.
Proof.
  induction pre as [|y pre IH]; [reflexivity|].
  cbn [app List.length update_at]. now rewrite IH.
Qed.

Lemma app_cons_not_nil {A : Type} (pre : list A) (x : A) (post : list A) :
  pre ++ x :: post <> [].
Proof. destruct pre; discriminate. Qed.

(** The conversion of a block given by its lines. *)
Lemma convert_block_lines (idents : list jsstring) (t : jsstring)
    (others : list jsstring) :
  Forall (fun l => ~ In LF l) (idents ++ t :: others) ->
  forallb (fun l => negb (includes ARROW l)) idents = true ->
  includes ARROW t = true ->
  has_time_line (join [LF] (idents ++ t :: others)) = true
  /\ convert_block (join [LF] (idents ++ t :: others))
     = join [LF] (idents ++ fix_timestamps t :: others)
  /\ split_on LF (join [LF] (idents ++ fix_timestamps t :: others))
     = idents ++ fix_timestamps t :: others.
Proof.
  intros Hall Hid Ht.
  assert (Hs : split_on LF (join [LF] (idents ++ t :: others))
               = idents ++ t :: others).
  { apply split_on_join; [apply app_cons_not_nil | exact Hall]. }
  assert (Hf : findIndex (includes ARROW) (idents ++ t :: others)
               = Some (List.length idents)).
  { now apply findIndex_app_skip. }
  repeat split.
  - unfold has_time_line. now rewrite Hs, Hf.
  - unfold convert_block. now rewrite Hs, Hf, update_at_app.
  - apply split_on_join; [apply app_cons_not_nil|].
    apply Forall_app in Hall. destruct Hall as [H1 H2].
    inversion H2 as [|? ? Ht' Ho]; subst.
    apply Forall_app. split; [exact H1|]. constructor; [|exact Ho].
    intros Hin. apply Ht'.
    apply (fix_timestamps_In LF t); [discriminate | discriminate | exact Hin].
Qed.

Lemma join_snoc (lines : list jsstring) :
  lines <> [] -> join [LF] (lines ++ [[]]) = join [LF] lines ++ [LF].
Proof.
  induction lines as [|l rest IH]; intros H; [contradiction|].
  destruct rest as [|l2 rest'].
  - cbn. reflexivity.
  - change (join [LF] ((l :: l2 :: rest') ++ [[]]))
      with (l ++ [LF] ++ join [LF] ((l2 :: rest') ++ [[]])).
    rewrite IH by discriminate.
    change (join [LF] (l :: l2 :: rest'))
      with (l ++ [LF] ++ join [LF] (l2 :: rest')).
    now rewrite <- !app_assoc.
Qed.

Lemma no_blank_snoc (F : jsstring) :
  no_blank F = true -> ends_lf F = false -> no_blank (F ++ [LF]) = true.
Proof.
  induction F as [|c F IH]; intros Hn He; [reflexivity|].
  cbn [no_blank] in Hn. apply andb_true_iff in Hn. destruct Hn as [H1 H2].
  cbn [app no_blank]. destruct F as [|d F'].
  - cbn [ends_lf] in He. cbn [app]. rewrite starts_with_LF_cons, He.
    reflexivity.
  - cbn [ends_lf] in He. rewrite (IH H2 He), andb_true_r.
    cbn [app]. rewrite starts_with_LF_cons in *. exact H1.
Qed.

Lemma split_blocks_tail (F : jsstring) (gap : nat) :
  no_blank F = true -> ends_lf F = false ->
  split_blocks (F ++ repeat LF gap)
  = match gap with
    | 0 => [F]
    | 1 => [F ++ [LF]]
    | S (S _) => [F; []]
    end.
Proof.
  intros Hn He. unfold split_blocks. destruct gap as [|[|k]].
  - cbn [repeat]. rewrite app_nil_r. now apply split_blank_whole.
  - cbn [repeat]. apply split_blank_whole. now apply no_blank_snoc.
  - change (repeat LF (S (S k))) with (LF :: LF :: repeat LF k).
    rewrite split_blank_at_sep by assumption.
    rewrite <- (app_nil_r (repeat LF k)), split_blank_run. reflexivity.
Qed.

Lemma split_blocks_gap (F X : jsstring) (gap : nat) :
  no_blank F = true -> ends_lf F = false -> starts_with [LF] X = false ->
  split_blocks (F ++ repeat LF (S (S gap)) ++ X) = F :: split_blocks X.
Proof.
  intros Hn He Hx. unfold split_blocks.
  change (F ++ repeat LF (S (S gap)) ++ X)
    with (F ++ LF :: LF :: (repeat LF gap ++ X)).
  rewrite split_blank_at_sep by assumption.
  now rewrite split_blank_run, split_blank_skip.
Qed.

Lemma starts_with_LF_prefix (F t : jsstring) :
  F <> [] -> starts_with [LF] F = false -> starts_with [LF] (F ++ t) = false.
Proof.
  destruct F as [|c F]; intros Hne H; [contradiction|].
  cbn [app]. now rewrite starts_with_LF_cons in *.
Qed.

Lemma forallb_false {A : Type} (f : A -> bool) (l : list A) :
  forallb f l = false -> exists x, In x l /\ f x = false.
Proof.
  induction l as [|y l IH]; [discriminate|].
  cbn [forallb]. destruct (f y) eqn:E.
  - intros H. destruct (IH H) as (x & Hx & Hf). exists x. split; [now right | exact Hf].
  - intros _. exists y. split; [now left | exact E].
Qed.

Lemma not_existsb_LF (l : jsstring) :
  existsb (fun c => (c =? LF)%N) l = false -> ~ In LF l.
Proof.
  intros H Hin.
  assert (E : existsb (fun c => (c =? LF)%N) l = true).
  { apply existsb_exists. exists LF. split; [exact Hin | apply N.eqb_refl]. }
  congruence.
Qed.

Lemma spaces_then_newlines_ws (w X T : jsstring) :
  forallb is_white_space w = true ->
  spaces_then_newlines X = Some T ->
  spaces_then_newlines (w ++ X) = Some T.
Proof.
  intros Hw HX. induction w as [|c w IH]; [exact HX|].
  cbn [forallb] in Hw. apply andb_true_iff in Hw. destruct Hw as [Hc Hw].
  cbn [app spaces_then_newlines]. now rewrite Hc, (IH Hw).
Qed.

(** The lines of a cue with its identifier lines. *)
Lemma full_cue_lines_ok (idents : list jsstring) (c : Cue) :
  forallb ident_ok idents = true -> well_formed_cue c = true ->
  Forall (fun l => line_ok l = true) (idents ++ time_line c :: text_lines c)
  /\ forallb (fun l => negb (includes ARROW l)) idents = true
  /\ includes ARROW (time_line c) = true.
Proof.
  intros Hid Hc. destruct (cue_lines_ok c Hc) as [Hl Ha].
  rewrite forallb_forall in Hid.
  repeat split.
  - apply Forall_app. split; [|exact Hl].
    apply Forall_forall. intros l Hin. specialize (Hid l Hin).
    unfold ident_ok in Hid. apply andb_true_iff in Hid. destruct Hid as [Hid _].
    apply andb_true_iff in Hid. tauto.
  - apply forallb_forall. intros l Hin. specialize (Hid l Hin).
    unfold ident_ok in Hid. apply andb_true_iff in Hid. destruct Hid as [Hid _].
    apply andb_true_iff in Hid. tauto.
  - exact Ha.
Qed.

Lemma lines_free (lines : list jsstring) :
  Forall (fun l => line_ok l = true) lines ->
  Forall (fun l => ~ In LF l) lines.
Proof.
  intros H. eapply Forall_impl; [|exact H]. cbn. intros l Hl.
  now apply line_ok_spec in Hl.
Qed.

Lemma closed_start_full_cue (idents : list jsstring) (c : Cue) (t : jsstring) :
  forallb ident_ok idents = true -> well_formed_cue c = true ->
  closed_start (full_cue idents c ++ t).
Proof.
  intros Hid Hc. destruct (full_cue_lines_ok idents c Hid Hc) as (Hl & _ & Ha).
  unfold full_cue.
  assert (Hfirst : forall first more,
             idents ++ time_line c :: text_lines c = first :: more ->
             exists x, In x first /\ is_white_space x = false).
  { intros first more E. destruct idents as [|i idents'].
    - cbn [app] in E. injection E as <- _. exists 45%N.
      split; [now apply includes_ARROW_dash | reflexivity].
    - cbn [app] in E. injection E as <- _.
      cbn [forallb] in Hid. apply andb_true_iff in Hid. destruct Hid as [Hi _].
      unfold ident_ok in Hi. apply andb_true_iff in Hi. destruct Hi as [_ Hi].
      apply existsb_exists in Hi. destruct Hi as (x & Hx & Hws).
      exists x. split; [exact Hx | now apply negb_true_iff]. }
  destruct (idents ++ time_line c :: text_lines c) as [|first more] eqn:E.
  { exfalso. now apply (app_cons_not_nil idents (time_line c) (text_lines c)). }
  inversion Hl as [|? ? Hf _]; subst.
  apply line_ok_spec in Hf. destruct Hf as [_ Hlf].
  specialize (Hfirst first more eq_refl).
  destruct more as [|l2 more'].
  - cbn [join]. now apply closed_start_line.
  - change (join [LF] (first :: l2 :: more'))
      with (first ++ LF :: join [LF] (l2 :: more')).
    rewrite <- app_assoc. now apply closed_start_line.
Qed.

(** The blocks of the two cues and of the line feeds after them. *)
Lemma body_blocks (idents1 idents2 : list jsstring) (c1 c2 : Cue)
    (gap2 gap3 : nat) :
  forallb ident_ok idents1 = true -> well_formed_cue c1 = true ->
  forallb ident_ok idents2 = true -> well_formed_cue c2 = true ->
  exists tail,
    (tail = [] \/ tail = [[]])
    /\ map convert_block
         (filter has_time_line
            (split_blocks (full_cue idents1 c1 ++ repeat LF (S (S gap2))
                           ++ full_cue idents2 c2 ++ repeat LF gap3)))
       = [ join [LF] (idents1 ++ fix_timestamps (time_line c1) :: text_lines c1);
           join [LF] (idents2 ++ fix_timestamps (time_line c2)
                        :: text_lines c2 ++ tail) ]
    /\ split_on LF (join [LF] (idents2 ++ fix_timestamps (time_line c2)
                                 :: text_lines c2 ++ tail))
       = idents2 ++ fix_timestamps (time_line c2) :: text_lines c2 ++ tail.
Proof.
  intros I1 W1 I2 W2.
  destruct (full_cue_lines_ok idents1 c1 I1 W1) as (L1 & A1 & T1).
  destruct (full_cue_lines_ok idents2 c2 I2 W2) as (L2 & A2 & T2).
  destruct (join_lines_block _ (app_cons_not_nil idents1 _ _) L1)
    as (N1 & E1 & _ & _).
  destruct (join_lines_block _ (app_cons_not_nil idents2 _ _) L2)
    as (N2 & E2 & S2 & Z2).
  fold (full_cue idents1 c1) in N1, E1.
  fold (full_cue idents2 c2) in N2, E2, S2, Z2.
  destruct (convert_block_lines idents1 (time_line c1) (text_lines c1)
              (lines_free _ L1) A1 T1) as (H1 & C1 & _).
  fold (full_cue idents1 c1) in H1, C1.
  rewrite split_blocks_gap; try assumption;
    [|now apply starts_with_LF_prefix].
  rewrite split_blocks_tail by assumption.
  assert (Hfree : forall tail, tail = [] \/ tail = [[]] ->
            Forall (fun l => ~ In LF l)
                   (idents2 ++ time_line c2 :: text_lines c2 ++ tail)).
  { intros tail Ht. pose proof (lines_free _ L2) as Hf.
    apply Forall_app in Hf. destruct Hf as [Hf1 Hf2].
    inversion Hf2 as [|? ? Hf3 Hf4]; subst.
    apply Forall_app. split; [exact Hf1|]. constructor; [exact Hf3|].
    apply Forall_app. split; [exact Hf4|].
    destruct Ht as [-> | ->]; [constructor|].
    constructor; [intros [] | constructor]. }
  destruct gap3 as [|[|k]].
  - exists []. split; [now left|].
    destruct (convert_block_lines idents2 (time_line c2) (text_lines c2 ++ [])
                (Hfree [] (or_introl eq_refl)) A2 T2) as (H2 & C2 & Sp).
    rewrite app_nil_r in H2, C2. fold (full_cue idents2 c2) in H2, C2.
    split; [|exact Sp].
    cbn [filter]. rewrite H1, H2. cbn [map]. now rewrite C1, C2, app_nil_r.
  - exists [[]]. split; [now right|].
    destruct (convert_block_lines idents2 (time_line c2) (text_lines c2 ++ [[]])
                (Hfree [[]] (or_intror eq_refl)) A2 T2) as (H2 & C2 & Sp).
    assert (Ej : join [LF] (idents2 ++ time_line c2 :: text_lines c2 ++ [[]])
                 = full_cue idents2 c2 ++ [LF]).
    { unfold full_cue. rewrite <- join_snoc by apply app_cons_not_nil.
      now rewrite <- app_assoc. }
    rewrite Ej in H2, C2.
    split; [|exact Sp].
    cbn [filter]. rewrite H1, H2. cbn [map]. now rewrite C1, C2.
  - exists []. split; [now left|].
    destruct (convert_block_lines idents2 (time_line c2) (text_lines c2 ++ [])
                (Hfree [] (or_introl eq_refl)) A2 T2) as (H2 & C2 & Sp).
    rewrite app_nil_r in H2, C2. fold (full_cue idents2 c2) in H2, C2.
    split; [|exact Sp].
    cbn [filter]. rewrite H1, H2.
    change (has_time_line []) with false. cbn [map].
    now rewrite C1, C2, app_nil_r.
Qed.

Lemma WEBVTT_free : ~ In LF WEBVTT.
Proof. intros H. repeat (destruct H as [H|H]; [discriminate H|]). exact H. Qed.

(** The blocks that the result is joined from, header line included. *)
Lemma srt_blocks_two_cue_text (rest : jsstring) (gap1 : nat)
    (idents1 : list jsstring) (c1 : Cue) (gap2 : nat)
    (idents2 : list jsstring) (c2 : Cue) (gap3 : nat) :
  header_ok rest = true -> header_gap_ok rest gap1 = true ->
  forallb ident_ok idents1 = true -> well_formed_cue c1 = true ->
  forallb ident_ok idents2 = true -> well_formed_cue c2 = true ->
  srt_blocks (two_cue_text rest gap1 idents1 c1 (S (S gap2)) idents2 c2 gap3)
  = map convert_block
      (filter has_time_line
         (split_blocks (full_cue idents1 c1 ++ repeat LF (S (S gap2))
                        ++ full_cue idents2 c2 ++ repeat LF gap3))).
Proof.
  intros Hh Hg I1 W1 I2 W2.
  unfold header_ok in Hh. apply andb_true_iff in Hh. destruct Hh as [Hlf Har].
  apply negb_true_iff in Hlf. apply negb_true_iff in Har.
  apply not_existsb_LF in Hlf.
  pose proof (closed_start_full_cue idents1 c1
                (repeat LF (S (S gap2)) ++ full_cue idents2 c2 ++ repeat LF gap3)
                I1 W1) as Hcs.
  set (body := full_cue idents1 c1 ++ repeat LF (S (S gap2))
               ++ full_cue idents2 c2 ++ repeat LF gap3) in *.
  unfold srt_blocks, two_cue_text. fold body.
  destruct (forallb is_white_space rest) eqn:Ews.
  - (* the pattern removes the header line *)
    assert (Hgap : exists k, gap1 = S k).
    { unfold header_gap_ok in Hg. destruct gap1 as [|k]; [|now exists k].
      cbn in Hg. discriminate. }
    destruct Hgap as [k ->].
    assert (Es : strip_header ((WEBVTT ++ rest) ++ repeat LF (S k) ++ body)
                 = body).
    { unfold strip_header. rewrite <- app_assoc.
      rewrite starts_with_app, skipn_length_app.
      rewrite (spaces_then_newlines_ws rest (repeat LF (S k) ++ body) body Ews);
        [reflexivity|].
      now apply spaces_then_newlines_gap. }
    now rewrite Es.
  - (* the header line stays and is dropped as a block without [-->] *)
    assert (Hgap : exists k, gap1 = S (S k)).
    { unfold header_gap_ok in Hg.
      rewrite Ews, andb_false_r, orb_false_r in Hg.
      destruct gap1 as [|[|k]]; try discriminate. now exists k. }
    destruct Hgap as [k ->].
    destruct (forallb_false _ _ Ews) as (x & Hx & Hxw).
    assert (Es : strip_header ((WEBVTT ++ rest) ++ repeat LF (S (S k)) ++ body)
                 = (WEBVTT ++ rest) ++ repeat LF (S (S k)) ++ body).
    { unfold strip_header. rewrite <- app_assoc.
      rewrite starts_with_app, skipn_length_app.
      rewrite spaces_then_newlines_closed; [reflexivity|].
      apply closed_start_line; [exact Hlf | now exists x]. }
    rewrite Es.
    assert (Hfree : ~ In LF (WEBVTT ++ rest)).
    { intros Hin. apply in_app_or in Hin.
      destruct Hin as [Hin|Hin]; [now apply WEBVTT_free | contradiction]. }
    assert (Hnb : no_blank (WEBVTT ++ rest) = true).
    { rewrite <- (app_nil_r (WEBVTT ++ rest)). now rewrite no_blank_free. }
    assert (Hend : ends_lf (WEBVTT ++ rest) = false).
    { destruct (ends_lf (WEBVTT ++ rest)) eqn:E; [|reflexivity].
      exfalso. now apply Hfree, ends_lf_In. }
    assert (Hstart : starts_with [LF] body = false).
    { destruct Hcs as (w & y & r & Eb & Hw & Hy). rewrite Eb.
      destruct w as [|c w'].
      - cbn [app]. rewrite starts_with_LF_cons.
        now destruct (not_white_space_newline y Hy).
      - inversion Hw as [|? ? [_ Hc] _]; subst. cbn [app].
        rewrite starts_with_LF_cons. now apply N.eqb_neq. }
    rewrite split_blocks_gap by assumption.
    assert (Hht : has_time_line (WEBVTT ++ rest) = false).
    { unfold has_time_line. rewrite split_on_single by assumption.
      cbn [findIndex]. now rewrite Har. }
    cbn [filter]. now rewrite Hht.
Qed.

(** X26.  For a WebVTT text of two cues whose line ends are line feeds,
    with a header line that may carry a title, a blank line after it,
    identifier lines before the time-range lines and line feeds at the end,
    splitting the result of [vttToSrt] on blank lines yields exactly two
    blocks.  Each block is its cue with every dot of the time-range line
    turned into a comma and every other line as it was; the header line is
    in neither block. *)
Theorem vttToSrt_two_cue_text (rest : jsstring) (gap1 : nat)
    (idents1 : list jsstring) (c1 : Cue) (gap2 : nat)
    (idents2 : list jsstring) (c2 : Cue) (gap3 : nat) :
  header_ok rest = true -> header_gap_ok rest gap1 = true -> 2 <= gap2 ->
  forallb ident_ok idents1 = true -> well_formed_cue c1 = true ->
  forallb ident_ok idents2 = true -> well_formed_cue c2 = true ->
  exists b1 b2,
    split_blocks
      (vttToSrt (two_cue_text rest gap1 idents1 c1 gap2 idents2 c2 gap3))
    = [b1; b2]
    /\ srt_cue_block (WEBVTT ++ rest) idents1 c1 b1
    /\ srt_cue_block (WEBVTT ++ rest) idents2 c2 b2.
Proof.
  intros Hh Hg G2 I1 W1 I2 W2.
  destruct gap2 as [|[|g2]]; [lia | lia |].
  pose proof (srt_blocks_two_cue_text rest gap1 idents1 c1 g2 idents2 c2 gap3
                Hh Hg I1 W1 I2 W2) as Hb.
  destruct (body_blocks idents1 idents2 c1 c2 g2 gap3 I1 W1 I2 W2)
    as (tail & Htail & Hm & Hs2).
  rewrite Hm in Hb.
  destruct (full_cue_lines_ok idents1 c1 I1 W1) as (L1 & A1 & T1).
  destruct (full_cue_lines_ok idents2 c2 I2 W2) as (L2 & A2 & T2).
  destruct (convert_block_lines idents1 (time_line c1) (text_lines c1)
              (lines_free _ L1) A1 T1) as (_ & _ & Hs1).
  unfold header_ok in Hh. apply andb_true_iff in Hh. destruct Hh as [_ Har].
  apply negb_true_iff in Har.
  assert (Hhead : forall idents c others l,
            includes ARROW (time_line c) = true ->
            In l (idents ++ fix_timestamps (time_line c) :: text_lines c ++ others) ->
            (others = [] \/ others = [[]]) ->
            l = WEBVTT ++ rest -> In l (idents ++ text_lines c)).
  { intros idents c others l Ht Hin Ho El.
    apply in_app_or in Hin. destruct Hin as [Hin|[Hin|Hin]].
    - apply in_or_app. now left.
    - exfalso. rewrite El in Hin. rewrite <- Hin, includes_fix in Har.
      congruence.
    - apply in_app_or in Hin. destruct Hin as [Hin|Hin].
      + apply in_or_app. now right.
      + exfalso. destruct Ho as [-> | ->]; [contradiction|].
        destruct Hin as [Hin|[]]. rewrite El in Hin. discriminate Hin. }
  eexists. eexists. split.
  - rewrite split_blocks_vttToSrt; [exact Hb | | rewrite Hb; discriminate].
    unfold two_cue_text. discriminate.
  - split.
    + unfold srt_cue_block. repeat split.
      * exists []. split; [now left|]. now rewrite app_nil_r.
      * now rewrite includes_fix.
      * apply fix_timestamps_no_dot.
      * intros l Hin El. rewrite Hs1 in Hin.
        apply (Hhead idents1 c1 [] l T1); auto. now rewrite app_nil_r.
    + unfold srt_cue_block. repeat split.
      * exists tail. split; [exact Htail | exact Hs2].
      * now rewrite includes_fix.
      * apply fix_timestamps_no_dot.
      * intros l Hin El. rewrite Hs2 in Hin.
        apply (Hhead idents2 c2 tail l T2); auto.
Qed.

Lemma vttToSrt_two_cue_text_witness :
  exists b1 b2,
    split_blocks (vttToSrt titled_vtt) = [b1; b2]
    /\ srt_cue_block (WEBVTT ++ lit " - demo") [lit "1"] cue_hello b1
    /\ srt_cue_block (WEBVTT ++ lit " - demo") [lit "intro"] cue_bye b2.
Proof.
  apply (vttToSrt_two_cue_text (lit " - demo") 2 [lit "1"] cue_hello 3
           [lit "intro"] cue_bye 1);
    [reflexivity | reflexivity | lia | reflexivity | reflexivity
     | reflexivity | reflexivity].
Defined.

End TwoCues.
